(** * RedisInsight: database registry helpers, stream views and the
      get-entries contract

    A shallow embedding of four pieces of the repository:
    - [ApiDatabase]: the helpers that resolve a database name or a
      connection type to an id and delete databases through the REST
      interface, one by one, all at once, or by calls that are not waited
      for (api-database.ts);
    - [ConsumersView]: the consumers table, re-sorted with lodash's [orderBy]
      ([Lodash]) when a column header is clicked;
    - [GroupsViewWrapper]: the consumer groups table, its popover and the
      effect that rebuilds the local list of groups;
    - [GetEntries]: the schemas ([Joi], [Json]) and the cases of the API
      suite of POST /instance/:id/streams/get-entries, with the endpoint
      they drive and the server behind it ([Redis]).

    Asynchronous functions are embedded as functions from the state of the
    server they talk to; a rejected promise is the [Throw] completion.
    Calls that are started and not awaited are embedded as a pool of calls
    and the steps the answers of the server make on it. A component is
    embedded as its state and the steps its handlers and effects make on
    it. *)

From Stdlib Require Import ZArith QArith Qcanon Ascii Structures.OrdersEx.
From stdpp Require Import base option numbers list strings pretty sorting
  relations.

Set Warnings "-register-all".

Open Scope string_scope.
Open Scope list_scope.

(** ** JavaScript values shared by the modules *)

Module Js.

(** What an [async] function settles to: the resolved value, or the
    [Error] it threw. *)
Inductive completion (A : Type) : Type :=
| Return (a : A)
| Throw (message : string).
Arguments Return {A} a.
Arguments Throw {A} message.

(** Truthiness of a value of type [string | undefined]: [undefined]
    ([None]) and the empty string are falsy. *)
Definition truthy (v : option string) : bool :=
  match v with
  | None => false
  | Some s => negb (String.eqb s "")
  end.

End Js.

(** ** JSON bodies *)

Module Json.

(** A JSON value; a number is the rational it denotes. *)
Inductive json : Type :=
| JNull
| JBool (b : bool)
| JNumber (q : Qc)
| JString (s : string)
| JArray (items : list json)
| JObject (members : list (string * json)).

Definition of_Z (z : Z) : Qc := Q2Qc (inject_Z z).
Definition JInt (z : Z) : json := JNumber (of_Z z).

(** [object[key]], [None] standing for undefined. *)
Fixpoint lookup (key : string) (members : list (string * json))
    : option json :=
  match members with
  | [] => None
  | (k, v) :: members =>
      if decide (k = key) then Some v else lookup key members
  end.

(** Equality of two values that are not arrays or objects. *)
Definition scalar_eqb (v w : json) : bool :=
  match v, w with
  | JNull, JNull => true
  | JBool b, JBool c => bool_decide (b = c)
  | JNumber q, JNumber r => bool_decide (q = r)
  | JString s, JString t => bool_decide (s = t)
  | _, _ => false
  end.

Definition is_integer (q : Qc) : bool :=
  bool_decide (Qden (this q) = 1%positive).

(** The integer a number is, when it is one. *)
Definition to_integer (q : Qc) : option Z :=
  if is_integer q then Some (Qnum (this q)) else None.

End Json.

(** ** The part of Joi the suite uses

    Validation converts no value: the schema of the requests is
    [.strict()], and the bodies checked against the schema of the responses
    hold numbers and strings where the schema wants them. *)

Module Joi.
Import Json.

Inductive base : Type :=
| TString              (* Joi.string() *)
| TNumber              (* Joi.number() *)
| TObject.             (* Joi.object() without keys *)

(** A schema for one value: its base type with the rules added to it. *)
Record schema : Type := {
  type : base;
  integer : bool;               (* .integer() *)
  min : option Z;               (* .min(n) *)
  allow : list json;            (* .allow(...) *)
  valid : option (list json);   (* .valid(...) *)
  required : bool;              (* .required() *)
}.

Definition string : schema :=
  {| type := TString; integer := false; min := None; allow := [];
     valid := None; required := false |}.
Definition number : schema :=
  {| type := TNumber; integer := false; min := None; allow := [];
     valid := None; required := false |}.
Definition with_integer (s : schema) : schema :=
  {| type := type s; integer := true; min := min s; allow := allow s;
     valid := valid s; required := required s |}.
Definition with_min (n : Z) (s : schema) : schema :=
  {| type := type s; integer := integer s; min := Some n;
     allow := allow s; valid := valid s; required := required s |}.
Definition with_allow (vs : list json) (s : schema) : schema :=
  {| type := type s; integer := integer s; min := min s;
     allow := allow s ++ vs; valid := valid s; required := required s |}.
Definition with_valid (vs : list json) (s : schema) : schema :=
  {| type := type s; integer := integer s; min := min s;
     allow := allow s; valid := Some vs; required := required s |}.
Definition with_required (s : schema) : schema :=
  {| type := type s; integer := integer s; min := min s;
     allow := allow s; valid := valid s; required := true |}.

Definition any_object : schema :=
  {| type := TObject; integer := false; min := None; allow := [];
     valid := None; required := false |}.

(** A number Joi takes for a safe one: within [Number.MAX_SAFE_INTEGER]
    on both sides. *)
Definition is_safe (q : Qc) : bool :=
  bool_decide (of_Z (- (2 ^ 53 - 1)) ≤ q ∧ q ≤ of_Z (2 ^ 53 - 1))%Qc.

Definition is_safe_integer (q : Qc) : bool := is_integer q && is_safe q.

(** The rules of the base type on a value that is there: a string is not
    empty, a number is a safe one. *)
Definition check_base (s : schema) (v : json) : bool :=
  match type s, v with
  | TString, JString t => negb (String.eqb t "")
  | TNumber, JNumber q =>
      (if integer s then is_safe_integer q else is_safe q) &&
      match min s with
      | Some n => bool_decide (of_Z n ≤ q)%Qc
      | None => true
      end
  | TObject, JObject _ => true
  | _, _ => false
  end.

(** Validation of the value of a key, [None] when the key is missing. *)
Definition check (s : schema) (v : option json) : bool :=
  match v with
  | None => negb (required s)
  | Some v =>
      existsb (scalar_eqb v) (allow s) ||
      match valid s with
      | Some vs => existsb (scalar_eqb v) vs
      | None => check_base s v
      end
  end.

(** [Joi.object({...})]: the schemas of the keys, and whether keys that
    have no schema are let through ([.unknown()]; they are not unless it
    is asked for). *)
Record object_schema : Type := {
  keys : list (String.string * schema);
  unknown : bool;
}.

Definition object (keys : list (String.string * schema)) : object_schema :=
  {| keys := keys; unknown := false |}.
Definition with_unknown (o : object_schema) : object_schema :=
  {| keys := keys o; unknown := true |}.

Definition check_keys (o : object_schema)
    (members : list (String.string * json)) : bool :=
  forallb (λ '(key, s), check s (lookup key members)) (keys o).

Definition known_keys (o : object_schema)
    (members : list (String.string * json)) : bool :=
  forallb (λ '(key, _), bool_decide (key ∈ (keys o).*1)) members.

Definition validate (o : object_schema) (v : json) : bool :=
  match v with
  | JObject members =>
      check_keys o members && (unknown o || known_keys o members)
  | _ => false
  end.

(** The schema of a key of an object of objects: that of a value, an object
    schema of its own ([o.required()]), or an array of objects
    ([Joi.array().items(o.required())]). *)
Inductive member : Type :=
| value (s : schema)
| nested (o : object_schema) (required : bool)
| array_of (o : object_schema) (required : bool).

Definition check_member (m : member) (v : option json) : bool :=
  match m, v with
  | value s, _ => check s v
  | nested _ required, None | array_of _ required, None => negb required
  | nested o _, Some v => validate o v
  | array_of o _, Some (JArray vs) => forallb (validate o) vs
  | array_of _ _, Some _ => false
  end.

(** [Joi.object().keys({...})] over such keys; keys without a schema are
    refused. *)
Definition validate_members (ms : list (String.string * member))
    (v : json) : bool :=
  match v with
  | JObject members =>
      forallb (λ '(key, m), check_member m (lookup key members)) ms &&
      forallb (λ '(key, _), bool_decide (key ∈ ms.*1)) members
  | _ => false
  end.

End Joi.

(** ** The Redis server behind an instance

    The server is "an external dependency" to which "range scanning, sorting
    by stream entry ID, ACL permission checks" are delegated (spec, section
    1). This module is the part of it the get-entries endpoint talks to, with
    the replies Redis documents for XINFO STREAM, XRANGE and XREVRANGE. *)

Module Redis.
Local Open Scope N_scope.

(** The id of a stream entry, [ms-seq]. *)
Abbreviation id := (N * N)%type.

Definition id_lt (a b : id) : Prop :=
  a.1 < b.1 ∨ (a.1 = b.1 ∧ a.2 < b.2).
Definition id_le (a b : id) : Prop := a = b ∨ id_lt a b.

Global Instance id_lt_dec a b : Decision (id_lt a b).
Proof. unfold id_lt. apply _. Defined.
Global Instance id_le_dec a b : Decision (id_le a b).
Proof. unfold id_le. apply _. Defined.

Record entry : Type := {
  entry_id : id;
  fields : list (string * string);
}.

(** Modelled from the spec: the server is not among the sources. A stream
    is its entries from the oldest to the newest ("an element of a Redis
    stream, identified by a monotonic id") and the last id it generated. *)
Record stream : Type := {
  entries : list entry;
  last_generated_id : id;
}.

(** [e1] has a smaller id than [e2]. *)
Definition older (e1 e2 : entry) : Prop := id_lt (entry_id e1) (entry_id e2).

(** The ids of a stream grow from one entry to the next, and none is
    above the last generated one. *)
Definition stream_wf (st : stream) : Prop :=
  StronglySorted older (entries st) ∧
  Forall (λ e, id_le (entry_id e) (last_generated_id st)) (entries st).

Inductive value : Type :=
| VString (s : string)
| VList (items : list string)
| VHash (members : list (string * string))
| VStream (st : stream).

Inductive command_name : Type := xinfo | xrange | xrevrange.

Global Instance command_name_eq_dec : EqDecision command_name.
Proof. solve_decision. Defined.

(** The database of an instance as the connected user sees it: the keys,
    and the commands the ACL rules of the user take away ([-xinfo] after
    [+@all]). *)
Record database : Type := {
  keyspace : list (string * value);
  denied : list command_name;
}.

Fixpoint get (key : string) (ks : list (string * value)) : option value :=
  match ks with
  | [] => None
  | (k, v) :: ks => if decide (k = key) then Some v else get key ks
  end.

Inductive command : Type :=
| XINFO_STREAM (key : string)
| XRANGE (key start end_ : string) (count : N)
| XREVRANGE (key end_ start : string) (count : N).

Definition name_of (c : command) : command_name :=
  match c with
  | XINFO_STREAM _ => xinfo
  | XRANGE _ _ _ _ => xrange
  | XREVRANGE _ _ _ _ => xrevrange
  end.

Inductive error : Type :=
| NOPERM               (* the user has no permission to run the command *)
| ERR_no_such_key
| WRONGTYPE            (* the key holds a value of another kind *)
| ERR_invalid_stream_id.

Record stream_info : Type := {
  length : N;
  info_last_generated_id : id;
  first_entry : option entry;
  last_entry : option entry;
}.

Inductive reply : Type :=
| Info (info : stream_info)
| Entries (es : list entry)
| Error (e : error).

(** Decimal numbers. *)
Fixpoint parse_digits (acc : N) (s : string) : option N :=
  match s with
  | EmptyString => Some acc
  | String.String c s =>
      d ← Ascii.is_nat c; parse_digits (10 * acc + N.of_nat d) s
  end.

Definition parse_N (s : string) : option N :=
  match s with
  | EmptyString => None
  | _ => parse_digits 0 s
  end.

(** The text before the first dash, and the text after it when there is
    a dash. *)
Fixpoint split_dash (s : string) : string * option string :=
  match s with
  | EmptyString => (EmptyString, None)
  | String.String c s =>
      if decide (c = "-"%char) then (EmptyString, Some s)
      else let '(ms, seq) := split_dash s in (String.String c ms, seq)
  end.

Definition max_uint64 : N := 2 ^ 64 - 1.

(** An end of a range: [-] is the smallest id and [+] the greatest, an id
    is [ms-seq], and [ms] alone stands for [ms-missing], the sequence
    number then being the smallest there is at the start of a range and
    the greatest at its end. *)
Definition parse_id (missing : N) (s : string) : option id :=
  if decide (s = "-") then Some (0, 0)
  else if decide (s = "+") then Some (max_uint64, max_uint64)
  else
    match split_dash s with
    | (ms, None) => ms ← parse_N ms; Some (ms, missing)
    | (ms, Some seq) => ms ← parse_N ms; seq ← parse_N seq; Some (ms, seq)
    end.

Definition parse_start : string → option id := parse_id 0.
Definition parse_end : string → option id := parse_id max_uint64.

Definition show_id (i : id) : string := pretty i.1 +:+ "-" +:+ pretty i.2.

Definition in_range (lo hi : id) (e : entry) : Prop :=
  id_le lo (entry_id e) ∧ id_le (entry_id e) hi.

Global Instance in_range_dec lo hi e : Decision (in_range lo hi e).
Proof. unfold in_range. apply _. Defined.

(** Modelled from the spec: the server's "native ascending range command",
    XRANGE: the entries of [lo..hi], oldest first, at most [count] of
    them. *)
Definition range (st : stream) (lo hi : id) (count : N) : list entry :=
  take (N.to_nat count) (filter (in_range lo hi) (entries st)).

(** Modelled from the spec: the server's native descending range command,
    XREVRANGE: the entries of [lo..hi], newest first, at most [count] of
    them. *)
Definition revrange (st : stream) (hi lo : id) (count : N) : list entry :=
  take (N.to_nat count) (reverse (filter (in_range lo hi) (entries st))).

Definition with_stream (db : database) (key : string)
    (absent : reply) (k : stream → reply) : reply :=
  match get key (keyspace db) with
  | None => absent
  | Some (VStream st) => k st
  | Some _ => Error WRONGTYPE
  end.

(** Modelled from the spec: the server is not among the sources. What it
    replies to a command: the permission of the user is looked at first
    (the "ACL permission checks"), then the key, then the arguments. A range
    over a key that is not there is empty. *)
Definition execute (db : database) (c : command) : reply :=
  if decide (name_of c ∈ denied db) then Error NOPERM
  else
    match c with
    | XINFO_STREAM key =>
        with_stream db key (Error ERR_no_such_key) (λ st,
          Info {| length := N.of_nat (List.length (entries st));
                  info_last_generated_id := last_generated_id st;
                  first_entry := head (entries st);
                  last_entry := last (entries st) |})
    | XRANGE key start end_ count =>
        with_stream db key (Entries []) (λ st,
          match parse_start start, parse_end end_ with
          | Some lo, Some hi => Entries (range st lo hi count)
          | _, _ => Error ERR_invalid_stream_id
          end)
    | XREVRANGE key end_ start count =>
        with_stream db key (Entries []) (λ st,
          match parse_start start, parse_end end_ with
          | Some lo, Some hi => Entries (revrange st hi lo count)
          | _, _ => Error ERR_invalid_stream_id
          end)
    end.

End Redis.

(** ** POST /instance/:instanceId/streams/get-entries *)

Module GetEntries.
Import Json.

(** *** The schemas and the data of the suite *)

Definition dataSchema : Joi.object_schema :=
  Joi.object
    [ ("keyName", Joi.with_required (Joi.with_allow [JString ""] Joi.string));
      ("start", Joi.string);
      ("end", Joi.string);
      ("count",
         Joi.with_allow [JBool true]
           (Joi.with_min 1 (Joi.with_integer Joi.number)));
      ("sortOrder",
         Joi.with_valid [JString "DESC"; JString "ASC"] Joi.string) ].

Definition entrySchema : Joi.object_schema :=
  Joi.object
    [ ("id", Joi.with_required Joi.string);
      ("fields", Joi.with_required Joi.any_object) ].

Definition responseSchema : list (string * Joi.member) :=
  [ ("keyName", Joi.value (Joi.with_required Joi.string));
    ("total",
       Joi.value (Joi.with_required (Joi.with_integer Joi.number)));
    ("lastGeneratedId", Joi.value (Joi.with_required Joi.string));
    ("firstEntry", Joi.nested entrySchema true);
    ("lastEntry", Joi.nested entrySchema true);
    ("entries", Joi.array_of entrySchema true) ].

Definition validInputData (randomString : string) : json :=
  JObject [ ("keyName", JString randomString);
            ("start", JString "-");
            ("end", JString "+");
            ("count", JInt 15);
            ("sortOrder", JString "DESC") ].

(** *** The endpoint

    The service behind the route is not among the sources; the definitions
    of this part are modelled from the spec (sections 4.1 and 7) and from
    what the suite expects of the route. *)

Inductive SortOrder : Type := ASC | DESC.

Record GetStreamEntriesDto : Type := {
  keyName : string;
  start : string;
  end_ : string;
  count : N;
  sortOrder : SortOrder;
}.

Record GetStreamEntriesResponse : Type := {
  response_keyName : string;
  total : N;
  lastGeneratedId : Redis.id;
  firstEntry : option Redis.entry;
  lastEntry : option Redis.entry;
  entries : list Redis.entry;
}.

Inductive failure : Type :=
| ValidationFailed
| WrongType
| KeyNotFound
| InstanceNotFound
| NoPermission
| ServerError.

(** Modelled from the spec: the error policy of section 4.1, "400 if the key
    is of the wrong type, 404 if the key or target instance does not exist,
    403 if the authenticated user lacks command ACL permission", and 400 for
    a validation failure (section 7). A reply of the server that is none of
    these is a server error. *)
Definition statusCode (f : failure) : N :=
  match f with
  | ValidationFailed | WrongType => 400
  | KeyNotFound | InstanceNotFound => 404
  | NoPermission => 403
  | ServerError => 500
  end.

Definition error (f : failure) : string :=
  match f with
  | ValidationFailed | WrongType => "Bad Request"
  | KeyNotFound | InstanceNotFound => "Not Found"
  | NoPermission => "Forbidden"
  | ServerError => "Internal Server Error"
  end.

(** Modelled from the spec: errors are "surfaced verbatim to the caller";
    the messages are those the suite expects of the two 404s. *)
Definition message (f : failure) : option string :=
  match f with
  | KeyNotFound => Some "Key with this name does not exist."
  | InstanceNotFound => Some "Invalid database instance id."
  | _ => None
  end.

Inductive outcome : Type :=
| Success (body : GetStreamEntriesResponse)
| Failure (f : failure).

(** The instances the application knows, by id. *)
Abbreviation server := (list (string * Redis.database)).

Fixpoint instance (instanceId : string) (srv : server)
    : option Redis.database :=
  match srv with
  | [] => None
  | (i, db) :: srv =>
      if decide (i = instanceId) then Some db else instance instanceId srv
  end.

(** Modelled from the spec: "validation failure (400, schema mismatch)".
    The schema the body is validated against is that of the suite, fields it
    does not name being let through: the suite itself sends [offset] and
    expects 200, 403 and 404. *)
Definition requestSchema : Joi.object_schema := Joi.with_unknown dataSchema.

(** Modelled from the spec: the spec gives no defaults; these are the ones
    of the case 'Should query 500 entries in the DESC order by default',
    which sends neither count nor sortOrder, nor start and end. *)
Definition DEFAULT_COUNT : N := 500.

Definition string_or (d : string) (v : option json) : string :=
  match v with Some (JString s) => s | _ => d end.

(** The count of a valid body: [true], which the schema allows, counts
    as the number it converts to. *)
Definition count_or (d : N) (v : option json) : N :=
  match v with
  | Some (JNumber q) => default d (Z.to_N <$> to_integer q)
  | Some (JBool true) => 1
  | _ => d
  end.

Definition sortOrder_or (d : SortOrder) (v : option json) : SortOrder :=
  match v with
  | Some (JString s) => if decide (s = "ASC") then ASC else DESC
  | _ => d
  end.

(** Modelled from the spec: the body "accepts keyName, start/end cursor
    markers (-/+ or explicit ids), count, sortOrder (ASC/DESC)"; a valid
    body is read with the defaults of the endpoint. *)
Definition read (body : json) : option GetStreamEntriesDto :=
  if Joi.validate requestSchema body then
    match body with
    | JObject members =>
        Some {| keyName := string_or "" (lookup "keyName" members);
                start := string_or "-" (lookup "start" members);
                end_ := string_or "+" (lookup "end" members);
                count := count_or DEFAULT_COUNT (lookup "count" members);
                sortOrder := sortOrder_or DESC (lookup "sortOrder" members) |}
    | _ => None
    end
  else None.

(** Modelled from the spec: the "error-code translation" of section 4.1. *)
Definition translate (e : Redis.error) : failure :=
  match e with
  | Redis.NOPERM => NoPermission
  | Redis.ERR_no_such_key => KeyNotFound
  | Redis.WRONGTYPE => WrongType
  | Redis.ERR_invalid_stream_id => ServerError
  end.

(** Modelled from the spec: the endpoint "delegates directly to the
    server's native ascending/descending range command". *)
Definition range_command (dto : GetStreamEntriesDto) : Redis.command :=
  match sortOrder dto with
  | ASC => Redis.XRANGE (keyName dto) (start dto) (end_ dto) (count dto)
  | DESC => Redis.XREVRANGE (keyName dto) (end_ dto) (start dto) (count dto)
  end.

(** Modelled from the spec: the service behind the route is not among the
    sources. It is "a direct pass-through with validation and error-code
    translation" (section 4.1): the body is validated, the instance is looked
    up, XINFO STREAM and then the range command of the sort order are sent
    to the server, and the body of the answer is made of what the two
    replies hold ("transient read-only projections of Redis server state
    (XINFO, XRANGE results)"). The result is the commands sent to the
    server, in their order, and the answer to the caller. *)
Definition getEntries (srv : server) (instanceId : string) (body : json)
    : list Redis.command * outcome :=
  match read body with
  | None => ([], Failure ValidationFailed)
  | Some dto =>
      match instance instanceId srv with
      | None => ([], Failure InstanceNotFound)
      | Some db =>
          let info := Redis.XINFO_STREAM (keyName dto) in
          match Redis.execute db info with
          | Redis.Info i =>
              let range := range_command dto in
              match Redis.execute db range with
              | Redis.Entries es =>
                  ([info; range],
                   Success {| response_keyName := keyName dto;
                              total := Redis.length i;
                              lastGeneratedId := Redis.info_last_generated_id i;
                              firstEntry := Redis.first_entry i;
                              lastEntry := Redis.last_entry i;
                              entries := es |})
              | Redis.Error e => ([info; range], Failure (translate e))
              | Redis.Info _ => ([info; range], Failure ServerError)
              end
          | Redis.Error e => ([info], Failure (translate e))
          | Redis.Entries _ => ([info], Failure ServerError)
          end
      end
  end.

(** The entries a request selects from a stream. *)
Definition selected (dto : GetStreamEntriesDto) (st : Redis.stream)
    (lo hi : Redis.id) : list Redis.entry :=
  match sortOrder dto with
  | ASC => Redis.range st lo hi (count dto)
  | DESC => Redis.revrange st hi lo (count dto)
  end.

Definition is_range_query (c : Redis.command) : Prop :=
  Redis.name_of c ≠ Redis.xinfo.

(** The entries are in the order asked for: by ascending id, or by
    descending id. *)
Definition ordered (order : SortOrder) (es : list Redis.entry) : Prop :=
  match order with
  | ASC => StronglySorted Redis.older es
  | DESC => StronglySorted (flip Redis.older) es
  end.

(** The commands a request of this sort order sends to the server. *)
Definition needs (order : SortOrder) (c : Redis.command_name) : Prop :=
  match c with
  | Redis.xinfo => True
  | Redis.xrange => order = ASC
  | Redis.xrevrange => order = DESC
  end.

(** Every stream of every instance is well formed. *)
Definition server_wf (srv : server) : Prop :=
  ∀ instanceId db key st,
    instance instanceId srv = Some db →
    Redis.get key (Redis.keyspace db) = Some (Redis.VStream st) →
    Redis.stream_wf st.

(** What "a body that does not match the request schema is answered 400
    and no range query is performed" asks of one request, the request
    schema being [dataSchema]. *)
Definition rejects_mismatch (srv : server) (instanceId : string)
    (body : json) : Prop :=
  Joi.validate dataSchema body = false →
  ∃ log f, getEntries srv instanceId body = (log, Failure f) ∧
           statusCode f = 400%N ∧ Forall (λ c, ¬ is_range_query c) log.

Definition is_string (v : json) : Prop := ∃ s, v = JString s.

(** The bodies the schema is there to refuse, field by field. *)
Inductive mismatch : json → Prop :=
| not_an_object body :
    (∀ members, body ≠ JObject members) → mismatch body
| keyName_missing members :
    lookup "keyName" members = None → mismatch (JObject members)
| keyName_not_a_string members v :
    lookup "keyName" members = Some v → ¬ is_string v →
    mismatch (JObject members)
| start_not_a_string members v :
    lookup "start" members = Some v → ¬ is_string v →
    mismatch (JObject members)
| end_not_a_string members v :
    lookup "end" members = Some v → ¬ is_string v →
    mismatch (JObject members)
| count_not_an_integer_from_1 members v :
    lookup "count" members = Some v → v ≠ JBool true →
    (∀ q, v = JNumber q → ¬ (is_integer q = true ∧ (of_Z 1 ≤ q)%Qc)) →
    mismatch (JObject members)
| sortOrder_not_one_of members v :
    lookup "sortOrder" members = Some v →
    v ≠ JString "DESC" → v ≠ JString "ASC" →
    mismatch (JObject members).

(** What "a user whose ACL denies any one of xinfo, xrange or xrevrange
    (xrevrange being needed only for DESC) is answered 403" asks of one
    request that is valid otherwise. *)
Definition forbidden_whenever_denied (srv : server) (instanceId : string)
    (body : json) : Prop :=
  ∀ dto db st c,
    read body = Some dto →
    instance instanceId srv = Some db →
    Redis.get (keyName dto) (Redis.keyspace db) = Some (Redis.VStream st) →
    c ∈ Redis.denied db →
    (c = Redis.xrevrange → sortOrder dto = DESC) →
    (getEntries srv instanceId body).2 = Failure NoPermission.

(** The body as the JSON that is sent: an id reads [ms-seq], an entry the
    stream does not have is null. *)
Definition entry_json (e : Redis.entry) : json :=
  JObject [ ("id", JString (Redis.show_id (Redis.entry_id e)));
            ("fields",
               JObject ((λ '(field, v), (field, JString v))
                          <$> Redis.fields e)) ].

Definition to_json (body : GetStreamEntriesResponse) : json :=
  JObject [ ("keyName", JString (response_keyName body));
            ("total", JInt (Z.of_N (total body)));
            ("lastGeneratedId",
               JString (Redis.show_id (lastGeneratedId body)));
            ("firstEntry", from_option entry_json JNull (firstEntry body));
            ("lastEntry", from_option entry_json JNull (lastEntry body));
            ("entries", JArray (entry_json <$> entries body)) ].

(** An entry with id and fields. *)
Definition is_entry (v : json) : Prop :=
  ∃ id fields, v = JObject [("id", JString id); ("fields", JObject fields)].

(** What "the response body is an object containing exactly the fields
    keyName (string), total (integer), lastGeneratedId (string), firstEntry
    and lastEntry (entries with id and fields) and entries (an array of such
    entries), all of them present" asks of a body. *)
Definition all_fields_present (body : json) : Prop :=
  ∃ keyName total lastGeneratedId firstEntry lastEntry entries,
    body = JObject [ ("keyName", JString keyName);
                     ("total", JInt total);
                     ("lastGeneratedId", JString lastGeneratedId);
                     ("firstEntry", firstEntry);
                     ("lastEntry", lastEntry);
                     ("entries", JArray entries) ] ∧
    is_entry firstEntry ∧ is_entry lastEntry ∧ Forall is_entry entries.

(** *** The data the suite runs on

    The test environment of the suite (its constants, [rte.data]) is not
    among the sources; it is modelled from the cases of the suite: a string
    key, and a stream of [number] entries, entry [i] holding the one field
    [f_i] with the value [v_i]. *)

Definition TEST_INSTANCE_ID : string := "TEST_INSTANCE_ID".
Definition TEST_INSTANCE_ACL_ID : string := "TEST_INSTANCE_ACL_ID".
Definition TEST_NOT_EXISTED_INSTANCE_ID : string := "TEST_NOT_EXISTED_INSTANCE_ID".
Definition TEST_STRING_KEY_1 : string := "TEST_STRING_KEY_1".
Definition TEST_STREAM_HUGE_KEY : string := "TEST_STREAM_HUGE_KEY".

Definition hugeEntry (i : N) : Redis.entry :=
  let n := pretty i in
  {| Redis.entry_id := (N.succ i, 0%N);
     Redis.fields := [("f_" +:+ n, "v_" +:+ n)] |}.

(** [number] entries, from entry [i] on. *)
Fixpoint hugeEntries (number : nat) (i : N) : list Redis.entry :=
  match number with
  | 0 => []
  | S number => hugeEntry i :: hugeEntries number (N.succ i)
  end.

Definition generateHugeStream (number : nat) : Redis.stream :=
  {| Redis.entries := hugeEntries number 0;
     Redis.last_generated_id := (N.of_nat number, 0%N) |}.

Definition generatedKeys (number : nat) : list (string * Redis.value) :=
  [ (TEST_STRING_KEY_1, Redis.VString "value");
    (TEST_STREAM_HUGE_KEY, Redis.VStream (generateHugeStream number)) ].

(** The instances of the test environment, with a stream of [number]
    entries (10000 in the suite), the user of the ACL instance being under
    [rules] ([setAclUserRules]). *)
Definition rte (number : nat) (rules : list Redis.command_name) : server :=
  let keys := generatedKeys number in
  [ (TEST_INSTANCE_ID,
     {| Redis.keyspace := keys; Redis.denied := [] |});
    (TEST_INSTANCE_ACL_ID,
     {| Redis.keyspace := keys; Redis.denied := rules |}) ].

(** The answer of the endpoint to a case of the 'Common' suite. *)
Definition common (data : list (string * json)) : outcome :=
  (getEntries (rte 10000 []) TEST_INSTANCE_ID (JObject data)).2.

(** The body the checks of the 'Common' suite expect. *)
Definition expected (es : list Redis.entry) : outcome :=
  Success {| response_keyName := TEST_STREAM_HUGE_KEY;
             total := 10000;
             lastGeneratedId := (10000, 0)%N;
             firstEntry := Some (hugeEntry 0);
             lastEntry := Some (hugeEntry 9999);
             entries := es |}.

(** The data of the cases of the ACL suite. *)
Definition aclData (sortOrder : string) : json :=
  JObject [ ("keyName", JString TEST_STREAM_HUGE_KEY);
            ("offset", JInt 0);
            ("count", JInt 15);
            ("sortOrder", JString sortOrder) ].

(** A stream whose entries were all deleted: the key is still there. *)
Definition emptied : server :=
  [ (TEST_INSTANCE_ID,
     {| Redis.keyspace :=
          [("mystream",
            Redis.VStream {| Redis.entries := [];
                             Redis.last_generated_id := (7, 0)%N |})];
        Redis.denied := [] |}) ].

(** What the checks of the suite read of an answer. *)
Definition success_of (o : outcome) : option GetStreamEntriesResponse :=
  match o with Success body => Some body | Failure _ => None end.

Definition status_of (o : outcome) : N :=
  match o with Success _ => 200 | Failure f => statusCode f end.

Definition message_of (o : outcome) : option string :=
  match o with Success _ => None | Failure f => message f end.

End GetEntries.

(** ** api-database.ts *)

Module ApiDatabase.
Import Js.

(** A record of GET /databases, with the fields the helpers read. *)
Record databaseParameters : Type := {
  id : string;
  name : string;
  connectionType : string;
}.

(** The part of [AddNewDatabaseParameters] that the delete helper reads. *)
Record AddNewDatabaseParameters : Type := {
  databaseName : option string;
}.

(** The registry behind /databases is the sequence of its records, in the
    order GET enumerates them (spec, section 2: "a straightforward
    keyed-record CRUD store"). *)
Abbreviation registry := (list databaseParameters).

(** Modelled from the spec: the REST server is not among the sources.
    [sendRequest(Methods.get, '/databases', 200)]: the body lists every
    record ("enumerated via GET"). *)
Definition getAllDatabases (srv : registry) : list databaseParameters := srv.

(** Modelled from the spec: the REST server is not among the sources.
    [sendRequest(Methods.delete, '/databases', 200, { ids })]: the records
    whose id is listed are gone ("deleted via DELETE by id list"), the
    others are kept in their order. *)
Definition deleteDatabases (ids : list string) (srv : registry) : registry :=
  filter (λ item, id item ∉ ids) srv.

(** Modelled from the spec: async-helper is not among the sources.
    [asyncFilter] keeps the items whose predicate resolved to true, in the
    order of the array ([doAsyncStuff] does nothing to the data). *)
Definition asyncFilter {A} (arr : list A) (P : A → Prop)
    `{!∀ x, Decision (P x)} : list A :=
  filter P arr.

Definition getDatabaseIdByName (databaseName : option string)
    (srv : registry) : completion (option string) :=
  if negb (truthy databaseName) then Throw "Error: Missing databaseName"
  else
    let allDataBases := getAllDatabases srv in
    let response :=
      asyncFilter allDataBases (λ item, Some (name item) = databaseName) in
    match response with
    | [] => Return None
    | item :: _ => Return (Some (id item))
    end.

(** The delete helper, as a step on the registry: the registry after the
    call, or the error thrown (the registry is then untouched). *)
Definition deleteStandaloneDatabaseApi (p : AddNewDatabaseParameters)
    (srv : registry) : completion registry :=
  match getDatabaseIdByName (databaseName p) srv with
  | Throw e => Throw e
  | Return databaseId =>
      if truthy databaseId then
        (* { 'ids': [`${databaseId}`] } *)
        let requestBody := [default "" databaseId] in
        Return (deleteDatabases requestBody srv)
      else Throw "Error: Missing databaseId"
  end.

(** What "deleting a database by name removes exactly one record;
    subsequent lookup by that name returns no id" asks of one call. *)
Definition removes_one_and_forgets (p : AddNewDatabaseParameters)
    (srv : registry) : Prop :=
  ∃ srv', deleteStandaloneDatabaseApi p srv = Return srv' ∧
          length srv = S (length srv') ∧
          getDatabaseIdByName (databaseName p) srv' = Return None.

(** Two connections saved under one name, as POST /databases allows. *)
Definition redis_1 : databaseParameters :=
  {| id := "id-1"; name := "redis"; connectionType := "STANDALONE" |}.
Definition redis_2 : databaseParameters :=
  {| id := "id-2"; name := "redis"; connectionType := "STANDALONE" |}.
Definition cluster_3 : databaseParameters :=
  {| id := "id-3"; name := "cluster"; connectionType := "CLUSTER" |}.

(** [k] calls of the delete helper for one database, each awaited before
    the next, up to the first that throws. *)
Fixpoint deleteStandaloneDatabaseApi_times (k : nat)
    (p : AddNewDatabaseParameters) (srv : registry) : completion registry :=
  match k with
  | O => Return srv
  | S k =>
      match deleteStandaloneDatabaseApi p srv with
      | Return srv' => deleteStandaloneDatabaseApi_times k p srv'
      | Throw message => Throw message
      end
  end.

(** *** The other helpers of the file *)

(** [`${v}`] of a value of type [string | undefined]. *)
Definition template (v : option string) : string := default "undefined" v.

(** The message of the [TypeError] that V8 throws when a property of
    [undefined] is read. *)
Definition TypeError_reading (property : string) : string :=
  "Cannot read properties of undefined (reading '" +:+ property +:+ "')".

(** [response[0].id] is read whether or not a record was found. *)
Definition getDatabaseByConnectionType (connectionType' : option string)
    (srv : registry) : completion string :=
  if negb (truthy connectionType') then Throw "Error: Missing connectionType"
  else
    let allDataBases := getAllDatabases srv in
    let response :=
      asyncFilter allDataBases
        (λ item, Some (connectionType item) = connectionType') in
    match response with
    | [] => Throw (TypeError_reading "id")
    | item :: _ => Return (id item)
    end.

(** What the helpers that delete have done to the server: the registry,
    and the id lists of the DELETE /databases requests sent so far. *)
Record world : Type := {
  databases : registry;
  deleted : list (list string);
}.

(** An [async] helper, from the world before the call to what the promise
    settles to and the world after it: what was done before an error is
    thrown stays done. *)
Definition api (A : Type) : Type := world → completion A * world.

Global Instance api_ret : MRet api := λ A a w, (Return a, w).

Global Instance api_bind : MBind api := λ A B f m w,
  match m w with
  | (Return a, w') => f a w'
  | (Throw message, w') => (Throw message, w')
  end.

(** A helper that reads the registry and sends nothing that changes
    it. *)
Definition reading {A} (f : registry → completion A) : api A :=
  λ w, (f (databases w), w).

(** [sendRequest(Methods.delete, '/databases', 200, { ids })]. *)
Definition sendDelete (ids : list string) : api () :=
  λ w, (Return (),
        {| databases := deleteDatabases ids (databases w);
           deleted := deleted w ++ [ids] |}).

(** [JSON.parse(JSON.stringify(allDatabases[i])).id] is the id of the
    record; the loop pushes the ids one by one. *)
Definition deleteAllDatabasesApi : api () :=
  allDatabases ← reading (λ srv, Return (getAllDatabases srv));
  if decide (0 < length allDatabases) then
    let databaseIds :=
      foldl (λ databaseIds dbData, databaseIds ++ [id dbData])
            [] allDatabases in
    if decide (0 < length databaseIds) then sendDelete databaseIds
    else mret ()
  else mret ().

(** [OSSClusterParameters], by the field the delete helper reads. *)
Record OSSClusterParameters : Type := {
  ossClusterDatabaseName : string;
}.

(** No test on the id here: the request is sent with whatever the
    template makes of it. *)
Definition deleteOSSClusterDatabaseApi (p : OSSClusterParameters) : api () :=
  databaseId ← reading (getDatabaseIdByName (Some (ossClusterDatabaseName p)));
  sendDelete [template databaseId].

(** [SentinelParameters]: the address of the sentinel, the primary groups
    to add ([masters], objects that are passed on as they are) and the
    names the groups are saved under ([name]). *)
Record SentinelParameters : Type := {
  sentinelHost : string;
  sentinelPort : string;
  masters : option (list Json.json);
  sentinelPassword : option string;
  sentinel_name : option (list string);
}.

(** The body of the [for] loop, from the name at place [i] on. *)
Fixpoint deleteSentinelDatabases (names : list string) : api () :=
  match names with
  | [] => mret ()
  | databaseName :: names =>
      databaseId ← reading (getDatabaseIdByName (Some databaseName));
      _ ← sendDelete [template databaseId];
      deleteSentinelDatabases names
  end.

Definition deleteAllSentinelDatabasesApi (p : SentinelParameters) : api () :=
  match sentinel_name p with
  | None => λ w, (Throw (TypeError_reading "length"), w)
  | Some names => deleteSentinelDatabases names
  end.

Definition deleteAllDatabasesByConnectionTypeApi (connectionType' : string)
    : api () :=
  databaseIds ← reading (getDatabaseByConnectionType (Some connectionType'));
  sendDelete [databaseIds].

(** [array.slice(0, end)] for an integer [end]: a negative one counts
    from the end of the array. *)
Definition slice_from_0 {A} (array : list A) (end_ : Z) : list A :=
  if decide (end_ < 0)%Z
  then take (Z.to_nat (Z.of_nat (length array) + end_)) array
  else take (Z.to_nat end_) array.

(** [Number(port)] of a port held as a string: the conversion is kept as
    it is written. *)
Inductive number : Type := Number (value : string).

(** The body [discoverSentinelDatabaseApi] posts to
    /redis-sentinel/databases. *)
Record SentinelRequestBody : Type := {
  sentinel_host : string;
  sentinel_port : number;
  sentinel_password : option string;
  sentinel_masters : option (list Json.json);
}.

(** The request body of [discoverSentinelDatabaseApi], or the error thrown
    while it is built; [primaryGroupsNumber] is a count, an integer when it
    is given, and 0 is falsy. *)
Definition discoverSentinelDatabaseApi (p : SentinelParameters)
    (primaryGroupsNumber : option Z) : completion SentinelRequestBody :=
  let requestBody masters :=
    {| sentinel_host := sentinelHost p;
       sentinel_port := Number (sentinelPort p);
       sentinel_password := sentinelPassword p;
       sentinel_masters := masters |} in
  match primaryGroupsNumber with
  | Some n =>
      if decide (n ≠ 0)%Z then
        match masters p with
        | Some ms => Return (requestBody (Some (slice_from_0 ms n)))
        | None => Throw (TypeError_reading "slice")
        end
      else Return (requestBody (masters p))
  | None => Return (requestBody (masters p))
  end.

(** *** The helpers that start a call for each element of an array

    [array.forEach(async element => { ... })] calls the callback for each
    element and drops the promise it returns: each call goes on by itself
    from its first [await], and the helper, which awaits nothing, resolves
    when [forEach] returns. *)

(** Where one call of the callback of the delete helpers stands: at
    [await getDatabaseIdByName(...)], the records not read yet; at
    [await sendRequest(Methods.delete, ...)], the request not answered
    yet; or settled, resolved or rejected. *)
Inductive call : Type :=
| awaiting_lookup (databaseName : option string)
| awaiting_delete (databaseId : string)
| settled (result : completion ()).

(** The call goes on with the records the server has when it answers:
    it sends the DELETE for the id it finds, or throws. *)
Definition resume_lookup (databaseName : option string) (srv : registry)
    : call :=
  match getDatabaseIdByName databaseName srv with
  | Throw message => settled (Throw message)
  | Return databaseId =>
      if truthy databaseId then awaiting_delete (template databaseId)
      else settled (Throw "Error: Missing databaseId")
  end.

(** The server and the calls that were started. *)
Record pool : Type := {
  server : world;
  calls : list call;
}.

(** The server answers the request one of the calls waits for; which one
    it answers next is not for the helper to say. *)
Inductive step : pool → pool → Prop :=
| step_lookup i databaseName w cs :
    cs !! i = Some (awaiting_lookup databaseName) →
    step {| server := w; calls := cs |}
         {| server := w;
            calls := <[i := resume_lookup databaseName (databases w)]> cs |}
| step_delete i databaseId w cs :
    cs !! i = Some (awaiting_delete databaseId) →
    step {| server := w; calls := cs |}
         {| server := (sendDelete [databaseId] w).2;
            calls := <[i := settled (Return ())]> cs |}.

(** What the promise of the helper settles to, and the calls it leaves
    behind. *)
Definition deleteStandaloneDatabasesByNamesApi (databaseNames : list string)
    (w : world) : completion () * pool :=
  (Return (),
   {| server := w;
      calls := (λ databaseName, awaiting_lookup (Some databaseName))
                 <$> databaseNames |}).

Definition deleteStandaloneDatabasesApi
    (databasesParameters : list AddNewDatabaseParameters) (w : world)
    : completion () * pool :=
  (Return (),
   {| server := w;
      calls :=
        if decide (length databasesParameters ≠ 0%nat)
        then (λ parameter, awaiting_lookup (databaseName parameter))
               <$> databasesParameters
        else [] |}).

(** Every call has settled. *)
Definition quiescent (p : pool) : Prop :=
  Forall (λ c, ∃ result, c = settled result) (calls p).

(** The answers a call still waits for, at most. *)
Definition pending (c : call) : nat :=
  match c with
  | awaiting_lookup _ => 2
  | awaiting_delete _ => 1
  | settled _ => 0
  end.

(** The DELETE requests of a call that were answered. *)
Definition answered (c : call) : nat :=
  match c with
  | settled (Return _) => 1
  | _ => 0
  end.

(** What is known of a call for the name [databaseName] when the server
    had the records [srv0] at first, has the records [srv] now, and has
    deleted the ids [ids]. *)
Definition call_invariant (srv0 srv : registry) (ids : list string)
    (databaseName : option string) (c : call) : Prop :=
  match c with
  | awaiting_lookup databaseName' => databaseName' = databaseName
  | awaiting_delete databaseId =>
      databaseId ≠ "" ∧
      ∃ item, item ∈ srv0 ∧ id item = databaseId ∧
              Some (name item) = databaseName ∧ name item ≠ ""
  | settled (Return _) =>
      ∃ item, item ∈ srv0 ∧ Some (name item) = databaseName ∧
              id item ∈ ids
  | settled (Throw message) =>
      (message = "Error: Missing databaseName" ∧
       (databaseName = None ∨ databaseName = Some "")) ∨
      (message = "Error: Missing databaseId" ∧
       (Forall (λ item, id item ≠ "") srv0 →
        ∀ item, item ∈ srv → Some (name item) ≠ databaseName))
  end.

(** What is known of the server and the calls while the calls for the
    names [databaseNames] run, from the world [w0] on. *)
Definition run_invariant (databaseNames : list (option string)) (w0 : world)
    (p : pool) : Prop :=
  ∃ ids,
    deleted (server p) = deleted w0 ++ ((λ databaseId, [databaseId]) <$> ids) ∧
    databases (server p) = deleteDatabases ids (databases w0) ∧
    length ids = sum_list_with answered (calls p) ∧
    Forall (λ databaseId,
              databaseId ≠ "" ∧
              ∃ item, item ∈ databases w0 ∧ id item = databaseId ∧
                      Some (name item) ∈ databaseNames ∧ name item ≠ "")
           ids ∧
    Forall2 (call_invariant (databases w0) (databases (server p)) ids)
            databaseNames (calls p).

(** The calls for "redis" and "sentinel" on a server that has [redis_1]
    and [cluster_3], all settled. *)
Definition settled_pool : pool :=
  {| server := {| databases := [cluster_3]; deleted := [["id-1"]] |};
     calls := [settled (Return ());
               settled (Throw "Error: Missing databaseId")] |}.

End ApiDatabase.

(** ** lodash's orderBy, as ConsumersView calls it *)

Module Lodash.
Local Open Scope Z_scope.

(** What a property of a row of the table can hold: a count, a text, or
    nothing when the row has no such property. *)
Inductive value : Type :=
| VUndefined
| VNumber (z : Z)
| VString (s : string).

Global Instance value_eq_dec : EqDecision value.
Proof. solve_decision. Defined.

(** [value > other] and [value < other] of JavaScript: numbers compare by
    size, strings by their characters' codes, and [undefined] compares
    false with everything. One column never holds a number in one row and a
    string in another, and the two are read as incomparable here. *)
Definition gt (value other : value) : bool :=
  match value, other with
  | VNumber x, VNumber y => bool_decide (y < x)%Z
  | VString s, VString t =>
      bool_decide (String_as_OT.compare s t = Gt)
  | _, _ => false
  end.

Definition lt (value other : value) : bool :=
  match value, other with
  | VNumber x, VNumber y => bool_decide (x < y)%Z
  | VString s, VString t =>
      bool_decide (String_as_OT.compare s t = Lt)
  | _, _ => false
  end.

Definition isDefined (v : value) : bool :=
  match v with VUndefined => false | _ => true end.

(** [compareAscending]: the tests on [null], symbols and [NaN] are left
    out, none of them being a [value]. *)
Definition compareAscending (value other : value) : Z :=
  if decide (value ≠ other) then
    if gt value other || negb (isDefined value) then 1
    else if lt value other || negb (isDefined other) then -1
    else 0
  else 0.

(** The objects [baseOrderBy] sorts: a row with its criteria and the place
    it had in the collection. *)
Record sortable (A : Type) : Type := {
  criteria : list value;
  index : nat;
  value_of : A;
}.
Arguments criteria {A} _.
Arguments index {A} _.
Arguments value_of {A} _.

(** The loop of [compareMultiple] over the criteria, [None] when it runs
    to its end without a difference. *)
Fixpoint compareCriteria (objCriteria othCriteria : list value)
    (orders : list string) : option Z :=
  match objCriteria, othCriteria with
  | v :: objCriteria, o :: othCriteria =>
      let result := compareAscending v o in
      if decide (result ≠ 0) then
        match orders with
        | [] => Some result
        | order :: _ =>
            Some (result * (if decide (order = "desc") then -1 else 1))%Z
        end
      else compareCriteria objCriteria othCriteria (tail orders)
  | _, _ => None
  end.

Definition compareMultiple {A} (object other : sortable A)
    (orders : list string) : Z :=
  default (Z.of_nat (index object) - Z.of_nat (index other))%Z
          (compareCriteria (criteria object) (criteria other) orders).

(** [array.sort(comparer)]: [x] goes before [y] when the comparer is
    negative. [compareMultiple] is never zero on two different objects of
    one collection, so every sorting algorithm gives the same array; this
    one inserts the elements one by one. *)
Fixpoint sortedInsert {A} (comparer : A → A → Z) (x : A) (l : list A) : list A :=
  match l with
  | [] => [x]
  | y :: l' =>
      if decide (comparer x y ≤ 0)%Z then x :: l
      else y :: sortedInsert comparer x l'
  end.

Definition baseSortBy {A} (array : list A) (comparer : A → A → Z) : list A :=
  foldr (sortedInsert comparer) [] array.

(** The comparer lets [x] stand before [y]. *)
Definition before {A} (comparer : A → A → Z) (x y : A) : Prop :=
  comparer x y ≤ 0.

Section orderBy.
Context {A : Type} (get : A → string → value).

Definition baseOrderBy (collection : list A) (iteratees : list string)
    (orders : list string) : list A :=
  let result :=
    imap (λ index value,
            {| criteria := get value <$> iteratees;
               index := index;
               value_of := value |}) collection in
  value_of <$>
    baseSortBy result (λ object other, compareMultiple object other orders).

(** [orderBy(collection, iteratee, order)] with one property name and
    one order, which may be undefined. *)
Definition orderBy (collection : list A) (iteratees : string)
    (orders : option string) : list A :=
  baseOrderBy collection [iteratees] (option_list orders).
End orderBy.

End Lodash.

(** ** ConsumersView.tsx *)

Module ConsumersView.
Import Lodash.
Local Open Scope Z_scope.

Inductive SortOrder : Type := ASC | DESC.

(** [order.toLowerCase()] on the two values of the enumeration, 'ASC' and
    'DESC'. *)
Definition toLowerCase (order : SortOrder) : string :=
  match order with ASC => "asc" | DESC => "desc" end.

(** [ConsumerDto]: a consumer of a group, as XINFO CONSUMERS reports it. *)
Record ConsumerDto : Type := {
  name : string;
  pending : Z;
  idle : Z;
}.

(** Reading the property [path] of a consumer: one of its three fields,
    and undefined for any other name. *)
Definition get (object : ConsumerDto) (path : string) : value :=
  if decide (path = "name") then VString (name object)
  else if decide (path = "pending") then VNumber (pending object)
  else if decide (path = "idle") then VNumber (idle object)
  else VUndefined.

(** The state of the component. *)
Record state : Type := {
  consumers : list ConsumerDto;
  sortedColumnName : string;
  sortedColumnOrder : SortOrder;
}.

(** The first render: [useState(data)], sorted by name, ascending. *)
Definition initial (data : list ConsumerDto) : state :=
  {| consumers := data; sortedColumnName := "name";
     sortedColumnOrder := ASC |}.

(** The effect on [data]. *)
Definition onData (data : list ConsumerDto) (s : state) : state :=
  {| consumers :=
       orderBy get data (sortedColumnName s)
               (Some (toLowerCase (sortedColumnOrder s)));
     sortedColumnName := sortedColumnName s;
     sortedColumnOrder := sortedColumnOrder s |}.

Definition onChangeSorting (column : string) (order : SortOrder)
    (s : state) : state :=
  {| sortedColumnName := column;
     sortedColumnOrder := order;
     consumers :=
       orderBy get (consumers s) column (Some (toLowerCase order)) |}.

(** The order of the values of a column: numbers by size, strings by the
    codes of their characters. *)
Definition value_le (a b : value) : Prop :=
  match a, b with
  | VNumber x, VNumber y => (x ≤ y)%Z
  | VString s, VString t => String_as_OT.compare s t ≠ Gt
  | VUndefined, VUndefined => True
  | _, _ => False
  end.

(** [a] may stand before [b] in a table sorted in the direction
    [order]. *)
Definition in_order (order : SortOrder) (a b : value) : Prop :=
  match order with
  | ASC => value_le a b
  | DESC => value_le b a
  end.

(** Two values of one kind, as the values of one column are. *)
Definition same_kind (a b : value) : Prop :=
  match a, b with
  | VNumber _, VNumber _ | VString _, VString _
  | VUndefined, VUndefined => True
  | _, _ => False
  end.

(** The order in which [orderBy] leaves two rows: by the value of the
    column in the direction asked for, and by the place in the collection
    when the values are equal. *)
Definition row_before (column : string) (order : SortOrder)
    (a b : sortable ConsumerDto) : Prop :=
  let ka := get (value_of a) column in
  let kb := get (value_of b) column in
  (in_order order ka kb ∧ ka ≠ kb) ∨ (ka = kb ∧ (index a ≤ index b)%nat).

(** The objects [baseOrderBy] makes of the consumers for one column,
    numbered from [start]. *)
Definition sortables (column : string) (start : nat)
    (collection : list ConsumerDto) : list (sortable ConsumerDto) :=
  imap (λ index value,
          {| criteria := [get value column];
             index := start + index;
             value_of := value |}) collection.

(** The states the component is in, once the effects of a render have
    run, while [data] is the list it was last given: after the first
    render, after a new list of consumers, after a click on a column
    header. *)
Inductive reachable : list ConsumerDto → state → Prop :=
| reachable_mount data : reachable data (onData data (initial data))
| reachable_data data data' s :
    reachable data s → reachable data' (onData data' s)
| reachable_sorting data column order s :
    reachable data s → reachable data (onChangeSorting column order s).

Definition headerHeight : Z := 60.

(** What the component hands to [VirtualTable] of its state. *)
Record tableProps : Type := {
  totalItemsCount : nat;
  table_headerHeight : Z;
  items : list ConsumerDto;
  sortedColumn : option (string * SortOrder);
}.

Definition render (s : state) : tableProps :=
  {| totalItemsCount := length (consumers s);
     table_headerHeight :=
       if decide (length (consumers s) ≠ 0%nat) then headerHeight else 0;
     items := consumers s;
     sortedColumn :=
       if decide (length (consumers s) ≠ 0%nat)
       then Some (sortedColumnName s, sortedColumnOrder s) else None |}.

Definition alice : ConsumerDto := {| name := "alice"; pending := 3; idle := 70 |}.
Definition bob : ConsumerDto := {| name := "bob"; pending := 0; idle := 15 |}.
Definition carol : ConsumerDto := {| name := "carol"; pending := 3; idle := 42 |}.
Definition dave : ConsumerDto := {| name := "dave"; pending := 1; idle := 15 |}.

End ConsumersView.

(** ** GroupsViewWrapper.tsx *)

Module GroupsViewWrapper.

(** [ConsumerGroupDto], by the fields the columns read. *)
Record ConsumerGroupDto : Type := {
  name : string;
  consumers : Z;
  pending : Z;
  smallestPendingId : string;
  greatestPendingId : string;
  lastDeliveredId : string;
}.

(** [IConsumerGroup extends ConsumerGroupDto]: a group and whether its
    row is being edited. *)
Record IConsumerGroup : Type := {
  group : ConsumerGroupDto;
  editing : bool;
}.

Global Instance ConsumerGroupDto_eq_dec : EqDecision ConsumerGroupDto.
Proof. solve_decision. Defined.

Inductive StreamViewType : Type := Data | Groups | Consumers.

(** The actions the component hands to [dispatch]; the store and, through
    its thunks, the stream on the server change by dispatched actions
    only. [fetchConsumers] carries the view its callback switches to. *)
Inductive action : Type :=
| setSelectedGroup (rowData : ConsumerGroupDto)
| fetchConsumers (resetData : bool) (onSuccess : StreamViewType)
| setStreamViewType (viewType : StreamViewType).

Definition suffix : string := "_stream_group".

(** One render of the component: what [useSelector] reads of the store,
    the two [useState] cells, and the actions dispatched so far. *)
Record state : Type := {
  loadedGroups : list ConsumerGroupDto;
  groups : list IConsumerGroup;
  deleting : string;
  dispatched : list action;
}.

(** The body of the effect: the local list is rebuilt from the loaded
    groups, no row being edited. *)
Definition effect (s : state) : state :=
  {| loadedGroups := loadedGroups s;
     groups := (λ item, {| group := item; editing := false |})
                 <$> loadedGroups s;
     deleting := deleting s;
     dispatched := dispatched s |}.

(** The first render: [useState([])], [useState('')], and the effect,
    which always runs after the first render. *)
Definition mount (data : list ConsumerGroupDto) : state :=
  effect {| loadedGroups := data; groups := []; deleting := "";
            dispatched := [] |}.

(** [useEffect(..., [loadedGroups, deleting])]: after a render the effect
    runs when one of its two dependencies is not what it was at the
    render before. *)
Definition commit (previous next : state) : state :=
  if decide (loadedGroups previous = loadedGroups next ∧
             deleting previous = deleting next)
  then next else effect next.

Definition closePopover (s : state) : state :=
  {| loadedGroups := loadedGroups s; groups := groups s;
     deleting := ""; dispatched := dispatched s |}.

Definition showPopover (groupName : string) (s : state) : state :=
  {| loadedGroups := loadedGroups s; groups := groups s;
     deleting := groupName +:+ suffix; dispatched := dispatched s |}.

(** The dispatch of [deleteStreamEntry] is commented out in the source:
    what is left is the call of [closePopover]. *)
Definition handleDeleteGroup (groupName : string) (s : state) : state :=
  closePopover s.

Definition handleRemoveIconClick (s : state) : state := s.

Definition handleEditGroup (groupId : string) (editing : bool)
    (s : state) : state :=
  let newGroupsState :=
    (λ item, if decide (name (group item) = groupId)
             then {| group := group item; editing := editing |}
             else item) <$> groups s in
  {| loadedGroups := loadedGroups s; groups := newGroupsState;
     deleting := deleting s; dispatched := dispatched s |}.

Definition handleSelectGroup (rowData : ConsumerGroupDto)
    (s : state) : state :=
  {| loadedGroups := loadedGroups s; groups := groups s;
     deleting := deleting s;
     dispatched :=
       dispatched s ++
         [setSelectedGroup rowData;
          fetchConsumers false Consumers] |}.

(** The store handing new groups to the component. *)
Definition onLoadedGroups (data : list ConsumerGroupDto)
    (s : state) : state :=
  {| loadedGroups := data; groups := groups s;
     deleting := deleting s; dispatched := dispatched s |}.

(** An event: the handler sets the state, the component renders again
    and the effect runs if it has to. *)
Definition on (handler : state → state) (s : state) : state :=
  commit s (handler s).

(** The states the component goes through. *)
Inductive reachable : state → Prop :=
| reachable_mount data : reachable (mount data)
| reachable_loaded data s :
    reachable s → reachable (on (onLoadedGroups data) s)
| reachable_show groupName s :
    reachable s → reachable (on (showPopover groupName) s)
| reachable_close s : reachable s → reachable (on closePopover s)
| reachable_delete groupName s :
    reachable s → reachable (on (handleDeleteGroup groupName) s)
| reachable_remove_icon s :
    reachable s → reachable (on handleRemoveIconClick s)
| reachable_edit groupId editing s :
    reachable s → reachable (on (handleEditGroup groupId editing) s)
| reachable_select rowData s :
    reachable s → reachable (on (handleSelectGroup rowData) s).

(** What "confirming the deletion only closes the popover, the groups
    list state and the stream are left unchanged" asks of one state. *)
Definition only_closes_popover (groupName : string) (s : state) : Prop :=
  let s' := on (handleDeleteGroup groupName) s in
  deleting s' = "" ∧ groups s' = groups s ∧
  loadedGroups s' = loadedGroups s ∧ dispatched s' = dispatched s.

Definition mygroup : ConsumerGroupDto :=
  {| name := "mygroup"; consumers := 2; pending := 1;
     smallestPendingId := "1526984818136-0";
     greatestPendingId := "1526984818136-0";
     lastDeliveredId := "1526985054069-0" |}.

Definition workers : ConsumerGroupDto :=
  {| name := "workers"; consumers := 0; pending := 0;
     smallestPendingId := ""; greatestPendingId := "";
     lastDeliveredId := "0-0" |}.

(** A session: the two groups are loaded, the remove icon of "mygroup"
    opens the popover, and the row of "workers" goes into editing. *)
Definition session : state :=
  on (handleEditGroup "workers" true)
     (on (showPopover "mygroup") (mount [mygroup; workers])).

End GroupsViewWrapper.

(** * Properties *)

(** ** Lists *)

Section list_facts.
Context {A : Type} (P : A → Prop) `{!∀ x, Decision (P x)}.
Implicit Types (l : list A).

Lemma filter_none l : Forall (λ x, ¬ P x) l → filter P l = [].
Proof.
  induction 1 as [|x l Hx _ IH]; [done|]. by rewrite filter_cons_False.
Qed.

Lemma filter_all l : Forall P l → filter P l = l.
Proof.
  induction 1 as [|x l Hx _ IH]; [done|].
  rewrite filter_cons_True by done. by f_equal.
Qed.

(** The first element that passes a filter splits the list. *)
Lemma filter_head_split l x rest :
  filter P l = x :: rest →
  ∃ l1 l2, l = l1 ++ x :: l2 ∧ Forall (λ y, ¬ P y) l1 ∧ P x ∧
           filter P l2 = rest.
Proof.
  induction l as [|y l IH]; [done|].
  rewrite filter_cons. case_decide as HP.
  - intros [= -> <-]. by exists [], l.
  - intros (l1 & l2 & -> & ? & ? & ?)%IH.
    exists (y :: l1), l2. split_and!; auto.
Qed.

End list_facts.

(** Two elements of a list without duplicates under [f] that [f] takes
    to one value are one element. *)
Lemma NoDup_fmap_eq {A B} (f : A → B) (l : list A) (x y : A) :
  NoDup (f <$> l) → x ∈ l → y ∈ l → f x = f y → x = y.
Proof.
  induction l as [|z l IH]; [by intros _ ?%elem_of_nil|].
  rewrite fmap_cons, NoDup_cons. intros [Hz Hnd].
  intros [-> | H1]%elem_of_cons [-> | H2]%elem_of_cons Heq; auto.
  - destruct Hz. rewrite Heq. by apply list_elem_of_fmap_2.
  - destruct Hz. rewrite <- Heq. by apply list_elem_of_fmap_2.
Qed.

Section strongly_sorted.
Context {A : Type}.
Implicit Types (l : list A) (R : relation A).

Lemma StronglySorted_weaken R R' l :
  (∀ x y, x ∈ l → y ∈ l → R x y → R' x y) →
  StronglySorted R l → StronglySorted R' l.
Proof.
  intros Himpl Hl. induction Hl as [|x l Hl IH Hx]; constructor.
  - apply IH. intros y z Hy Hz. apply Himpl; by right.
  - apply Forall_forall. intros y Hy.
    apply Himpl; [by left|by right|].
    by eapply Forall_forall in Hx.
Qed.

Lemma StronglySorted_filter R (P : A → Prop) `{!∀ x, Decision (P x)} l :
  StronglySorted R l → StronglySorted R (filter P l).
Proof.
  induction 1 as [|x l Hl IH Hx]; [constructor|].
  rewrite filter_cons. case_decide; [|done].
  constructor; [done|].
  apply Forall_forall. intros y [_ Hy]%list_elem_of_filter.
  by eapply Forall_forall in Hx.
Qed.

(** Two elements of a sorted list are equal or related, one way or the
    other. *)
Lemma StronglySorted_elem_of R l x y :
  StronglySorted R l → x ∈ l → y ∈ l → x = y ∨ R x y ∨ R y x.
Proof.
  induction 1 as [|z l Hl IH Hz]; [by intros ?%elem_of_nil|].
  rewrite Forall_forall in Hz.
  intros [-> | Hx]%elem_of_cons [-> | Hy]%elem_of_cons; auto.
Qed.

Lemma filter_fmap {B} (f : B → A) (P : A → Prop) `{!∀ x, Decision (P x)}
    (k : list B) :
  filter P (f <$> k) = f <$> filter (λ y, P (f y)) k.
Proof.
  induction k as [|y k IH]; [done|]. csimpl.
  rewrite !filter_cons. case_decide; csimpl; by rewrite IH.
Qed.
End strongly_sorted.

(** ** Sorting by insertion with a comparer *)

Section sorted_insert.
Import Lodash.
Context {A : Type} (comparer : A → A → Z) (D : A → Prop).
Hypothesis comparer_total :
  ∀ x y, D x → D y → before comparer x y ∨ before comparer y x.
Hypothesis comparer_trans :
  ∀ x y z, D x → D y → D z →
    before comparer x y → before comparer y z → before comparer x z.
Implicit Types (l : list A).

Lemma sortedInsert_Permutation x l : sortedInsert comparer x l ≡ₚ x :: l.
Proof.
  induction l as [|y l IH]; simpl; [done|].
  case_decide; [done|]. rewrite IH. apply Permutation_swap.
Qed.

Lemma baseSortBy_Permutation l : baseSortBy l comparer ≡ₚ l.
Proof.
  induction l as [|x l IH]; simpl; [done|].
  by rewrite sortedInsert_Permutation, IH.
Qed.

Lemma sortedInsert_sorted x l :
  D x → Forall D l → StronglySorted (before comparer) l →
  StronglySorted (before comparer) (sortedInsert comparer x l).
Proof.
  intros Hx HD Hl. induction Hl as [|y l Hl IH Hy]; simpl.
  { repeat constructor. }
  apply Forall_cons in HD as [HDy HD].
  case_decide as Hxy.
  - constructor; [by constructor|].
    constructor; [done|].
    apply Forall_forall. intros z Hz.
    apply (comparer_trans x y z); try done.
    + by eapply Forall_forall in HD.
    + by eapply Forall_forall in Hy.
  - constructor; [by apply IH|].
    apply Forall_forall. intros z Hz.
    rewrite sortedInsert_Permutation in Hz.
    apply elem_of_cons in Hz as [-> | Hz].
    + by destruct (comparer_total x y).
    + by eapply Forall_forall in Hy.
Qed.

Lemma baseSortBy_sorted l :
  Forall D l → StronglySorted (before comparer) (baseSortBy l comparer).
Proof.
  induction 1 as [|x l Hx Hl IH]; simpl; [constructor|].
  apply sortedInsert_sorted; [done| |done].
  by rewrite baseSortBy_Permutation.
Qed.

End sorted_insert.

(** ** api-database.ts *)

Section api_database.
Import Js ApiDatabase.

Implicit Types (srv l rest : registry) (item : databaseParameters).
Implicit Types (n : string).

Lemma truthy_Some n : truthy (Some n) = true ↔ n ≠ "".
Proof.
  simpl. rewrite negb_true_iff. split.
  - intros H ->. by rewrite String.eqb_refl in H.
  - intros H. by apply String.eqb_neq.
Qed.

Lemma getDatabaseIdByName_filter n srv :
  n ≠ "" →
  getDatabaseIdByName (Some n) srv =
    Return (id <$> head (filter (λ item, Some (name item) = Some n) srv)).
Proof.
  intros Hn. unfold getDatabaseIdByName.
  apply truthy_Some in Hn as ->. simpl.
  unfold asyncFilter, getAllDatabases.
  by destruct (filter _ srv).
Qed.

Lemma filter_first_match n l1 item l2 :
  (∀ item', item' ∈ l1 → name item' ≠ n) → name item = n →
  filter (λ item, Some (name item) = Some n) (l1 ++ item :: l2) =
    item :: filter (λ item, Some (name item) = Some n) l2.
Proof.
  intros Hl1 Hitem. rewrite filter_app, filter_cons_True by congruence.
  rewrite (filter_none _ l1); [done|].
  apply Forall_forall. intros item' Hin [=]. by eapply Hl1.
Qed.

(** Deleting by an id that identifies one record removes that record and
    nothing else. *)
Lemma deleteDatabases_single l1 item l2 :
  NoDup (id <$> (l1 ++ item :: l2)) →
  deleteDatabases [id item] (l1 ++ item :: l2) = l1 ++ l2.
Proof.
  intros Hnd. unfold deleteDatabases.
  rewrite fmap_app, fmap_cons in Hnd.
  apply NoDup_app in Hnd as (_ & Hl1 & Hnd).
  apply NoDup_cons in Hnd as (Hl2 & _).
  rewrite filter_app, filter_cons_False by (intros H; apply H; left).
  f_equal; apply filter_all, Forall_forall; intros x Hx Hin;
    apply list_elem_of_singleton in Hin.
  - apply (Hl1 (id x)); [by apply list_elem_of_fmap_2|].
    rewrite Hin. left.
  - apply Hl2. rewrite <- Hin. by apply list_elem_of_fmap_2.
Qed.

Lemma getDatabaseIdByName_missing srv :
  getDatabaseIdByName None srv = Throw "Error: Missing databaseName" ∧
  getDatabaseIdByName (Some "") srv = Throw "Error: Missing databaseName".
Proof. done. Qed.

Lemma filter_name_Some n l :
  filter (λ item, Some (name item) = Some n) l =
  filter (λ item, name item = n) l.
Proof. apply list_filter_iff. intros item. split; congruence. Qed.

(** C10. [getDatabaseIdByName] throws when the name is missing or empty;
    when no record has the name it resolves to undefined (no id) instead
    of throwing; and when several records share the name it resolves to
    the id of the first of them in the order of enumeration. *)
Theorem getDatabaseIdByName_cases srv :
  (∀ databaseName, databaseName = None ∨ databaseName = Some "" →
     getDatabaseIdByName databaseName srv =
       Throw "Error: Missing databaseName") ∧
  (∀ n, n ≠ "" →
     (∀ item, item ∈ getAllDatabases srv → name item ≠ n) →
     getDatabaseIdByName (Some n) srv = Return None) ∧
  (∀ n l1 item l2, n ≠ "" →
     getAllDatabases srv = l1 ++ item :: l2 →
     (∀ item', item' ∈ l1 → name item' ≠ n) → name item = n →
     getDatabaseIdByName (Some n) srv = Return (Some (id item))).
Proof.
  split_and!.
  - intros databaseName [-> | ->]; apply getDatabaseIdByName_missing.
  - intros n Hn Hnone. rewrite getDatabaseIdByName_filter by done.
    rewrite filter_none; [done|].
    apply Forall_forall. intros item Hin [=]. by eapply Hnone.
  - intros n l1 item l2 Hn Hsrv Hl1 Hitem.
    rewrite getDatabaseIdByName_filter by done.
    unfold getAllDatabases in Hsrv. subst srv.
    by rewrite filter_first_match.
Qed.

Lemma getDatabaseIdByName_cases_witness :
  getDatabaseIdByName None [redis_1; redis_2; cluster_3] =
    Throw "Error: Missing databaseName" ∧
  getDatabaseIdByName (Some "sentinel") [redis_1; redis_2; cluster_3] =
    Return None ∧
  getDatabaseIdByName (Some "redis") [cluster_3; redis_1; redis_2] =
    Return (Some "id-1").
Proof.
  split_and!.
  - apply (getDatabaseIdByName_cases [redis_1; redis_2; cluster_3]).
    left. reflexivity.
  - apply (getDatabaseIdByName_cases [redis_1; redis_2; cluster_3]).
    + discriminate.
    + intros item Hin. unfold getAllDatabases in Hin.
      repeat (apply elem_of_cons in Hin as [-> | Hin];
              [discriminate|]).
      by apply elem_of_nil in Hin.
  - apply (getDatabaseIdByName_cases [cluster_3; redis_1; redis_2])
      with (l1 := [cluster_3]) (item := redis_1) (l2 := [redis_2]).
    + discriminate.
    + reflexivity.
    + intros item Hin.
      apply elem_of_cons in Hin as [-> | Hin]; [discriminate|].
      by apply elem_of_nil in Hin.
    + reflexivity.
Defined.

(** X5. The delete helper throws 'Error: Missing databaseName' when the
    name is missing or empty and 'Error: Missing databaseId' when no record
    has the name; it then sends no DELETE, and the registry stays as it
    is. *)
Theorem deleteStandaloneDatabaseApi_throws p srv :
  (databaseName p = None ∨ databaseName p = Some "" →
   deleteStandaloneDatabaseApi p srv = Throw "Error: Missing databaseName") ∧
  (∀ n, databaseName p = Some n → n ≠ "" →
     (∀ item, item ∈ srv → name item ≠ n) →
     deleteStandaloneDatabaseApi p srv = Throw "Error: Missing databaseId").
Proof.
  unfold deleteStandaloneDatabaseApi. split.
  - by intros [-> | ->].
  - intros n -> Hn Hnone. rewrite getDatabaseIdByName_filter by done.
    rewrite filter_none; [done|].
    apply Forall_forall. intros item Hin [=]. by eapply Hnone.
Qed.

Lemma deleteStandaloneDatabaseApi_throws_witness :
  deleteStandaloneDatabaseApi {| databaseName := None |} [redis_1]
    = Throw "Error: Missing databaseName" ∧
  deleteStandaloneDatabaseApi {| databaseName := Some "sentinel" |} [redis_1]
    = Throw "Error: Missing databaseId".
Proof.
  destruct (deleteStandaloneDatabaseApi_throws
              {| databaseName := None |} [redis_1]) as [Hname _].
  destruct (deleteStandaloneDatabaseApi_throws
              {| databaseName := Some "sentinel" |} [redis_1]) as [_ Hid].
  split.
  - apply Hname. left. reflexivity.
  - apply (Hid "sentinel"); [reflexivity|discriminate|].
    intros item Hin. apply list_elem_of_singleton in Hin. subst item.
    discriminate.
Defined.

(** The claim of C4 fails where two records share the name: the helper
    deletes the first of them and the lookup then finds the second. *)
Lemma delete_leaves_namesake :
  NoDup (id <$> [redis_1; redis_2]) ∧
  deleteStandaloneDatabaseApi {| databaseName := Some "redis" |}
    [redis_1; redis_2] = Return [redis_2] ∧
  getDatabaseIdByName (Some "redis") [redis_2] = Return (Some "id-2") ∧
  ¬ removes_one_and_forgets {| databaseName := Some "redis" |}
      [redis_1; redis_2].
Proof.
  split_and!; [|done|done|].
  - compute_done.
  - intros (srv' & Hdel & _ & Hget).
    vm_compute in Hdel. injection Hdel as <-. by vm_compute in Hget.
Qed.

(** C4, amended. Deleting a database by name removes exactly one record,
    the first one that has the name (the ids of the records being distinct
    and not empty); afterwards, looking up that name returns the id of the
    next record of that name, and no id when no other record has it. *)
Theorem deleteStandaloneDatabaseApi_removes_first p n srv :
  databaseName p = Some n → n ≠ "" →
  NoDup (id <$> srv) → Forall (λ item, id item ≠ "") srv →
  (∃ item, item ∈ srv ∧ name item = n) →
  ∃ l1 item l2,
    srv = l1 ++ item :: l2 ∧ name item = n ∧
    Forall (λ item', name item' ≠ n) l1 ∧
    deleteStandaloneDatabaseApi p srv = Return (l1 ++ l2) ∧
    length srv = S (length (l1 ++ l2)) ∧
    getDatabaseIdByName (Some n) (l1 ++ l2) =
      Return (id <$> head (filter (λ item', name item' = n) l2)) ∧
    (Forall (λ item', name item' ≠ n) l2 →
     getDatabaseIdByName (Some n) (l1 ++ l2) = Return None).
Proof.
  intros Hp Hn Hnd Hids (item0 & Hin & Hname).
  destruct (filter (λ item, name item = n) srv) as [|item rest] eqn:Hf.
  { exfalso. eapply filter_nil_not_elem_of; [exact Hf| |exact Hin]; done. }
  apply filter_head_split in Hf as (l1 & l2 & -> & Hl1 & Hitem & Hrest).
  assert (getDatabaseIdByName (Some n) (l1 ++ l2) =
          Return (id <$> head (filter (λ item', name item' = n) l2)))
    as Hafter.
  { rewrite getDatabaseIdByName_filter, filter_name_Some by done.
    by rewrite filter_app, (filter_none _ l1), app_nil_l. }
  exists l1, item, l2. split_and!; try done.
  - unfold deleteStandaloneDatabaseApi. rewrite Hp.
    rewrite (getDatabaseIdByName_filter n) by done.
    rewrite filter_first_match; [|by apply Forall_forall|done]. simpl.
    assert (id item ≠ "") as Hid%truthy_Some.
    { rewrite Forall_app, Forall_cons in Hids. tauto. }
    simpl in Hid. rewrite Hid. by rewrite deleteDatabases_single.
  - rewrite !length_app. simpl. lia.
  - intros Hl2. rewrite Hafter. by rewrite (filter_none _ l2).
Qed.

Lemma deleteStandaloneDatabaseApi_removes_first_witness :
  ∃ l1 item l2,
    [cluster_3; redis_1; redis_2] = l1 ++ item :: l2 ∧
    name item = "redis" ∧
    Forall (λ item', name item' ≠ "redis") l1 ∧
    deleteStandaloneDatabaseApi {| databaseName := Some "redis" |}
      [cluster_3; redis_1; redis_2] = Return (l1 ++ l2) ∧
    length [cluster_3; redis_1; redis_2] = S (length (l1 ++ l2)) ∧
    getDatabaseIdByName (Some "redis") (l1 ++ l2) =
      Return (id <$> head (filter (λ item', name item' = "redis") l2)) ∧
    (Forall (λ item', name item' ≠ "redis") l2 →
     getDatabaseIdByName (Some "redis") (l1 ++ l2) = Return None).
Proof.
  apply (deleteStandaloneDatabaseApi_removes_first
           {| databaseName := Some "redis" |} "redis"
           [cluster_3; redis_1; redis_2]).
  - reflexivity.
  - discriminate.
  - compute_done.
  - repeat constructor; discriminate.
  - exists redis_1. split; [|reflexivity].
    apply elem_of_cons. right. apply elem_of_cons. by left.
Defined.

(** *** The helpers by connection type, and the other delete helpers *)

Lemma getDatabaseByConnectionType_filter n srv :
  n ≠ "" →
  getDatabaseByConnectionType (Some n) srv =
    match filter (λ item, connectionType item = n) srv with
    | [] => Throw (TypeError_reading "id")
    | item :: _ => Return (id item)
    end.
Proof.
  intros Hn. unfold getDatabaseByConnectionType.
  apply truthy_Some in Hn as ->. simpl.
  unfold asyncFilter, getAllDatabases.
  rewrite (list_filter_iff _ (λ item, connectionType item = n)); [done|].
  intros item. split; congruence.
Qed.

(** X6. [getDatabaseByConnectionType] throws 'Error: Missing
    connectionType' when the type is missing or empty; when no record has
    the type it throws too, a [TypeError] on reading the id of no record,
    where the lookup by name resolves to undefined; otherwise it resolves
    to the id of the first record of that type. *)
Theorem getDatabaseByConnectionType_cases srv :
  (∀ t, t = None ∨ t = Some "" →
     getDatabaseByConnectionType t srv =
       Throw "Error: Missing connectionType") ∧
  (∀ n, n ≠ "" →
     (∀ item, item ∈ getAllDatabases srv → connectionType item ≠ n) →
     getDatabaseByConnectionType (Some n) srv =
       Throw "Cannot read properties of undefined (reading 'id')") ∧
  (∀ n l1 item l2, n ≠ "" →
     getAllDatabases srv = l1 ++ item :: l2 →
     (∀ item', item' ∈ l1 → connectionType item' ≠ n) →
     connectionType item = n →
     getDatabaseByConnectionType (Some n) srv = Return (id item)).
Proof.
  split_and!.
  - by intros t [-> | ->].
  - intros n Hn Hnone. rewrite getDatabaseByConnectionType_filter by done.
    rewrite filter_none; [done|].
    apply Forall_forall. intros item Hin. by apply Hnone.
  - intros n l1 item l2 Hn Hsrv Hl1 Hitem.
    rewrite getDatabaseByConnectionType_filter by done.
    unfold getAllDatabases in Hsrv. subst srv.
    rewrite filter_app, filter_cons_True by done.
    rewrite (filter_none _ l1); [done|].
    apply Forall_forall. intros item' Hin. by apply Hl1.
Qed.

Lemma getDatabaseByConnectionType_cases_witness :
  getDatabaseByConnectionType None [redis_1; redis_2; cluster_3] =
    Throw "Error: Missing connectionType" ∧
  getDatabaseByConnectionType (Some "SENTINEL") [redis_1; redis_2; cluster_3] =
    Throw "Cannot read properties of undefined (reading 'id')" ∧
  getDatabaseByConnectionType (Some "STANDALONE")
    [cluster_3; redis_1; redis_2] = Return "id-1".
Proof.
  split_and!.
  - apply (getDatabaseByConnectionType_cases [redis_1; redis_2; cluster_3]).
    left. reflexivity.
  - apply (getDatabaseByConnectionType_cases [redis_1; redis_2; cluster_3]).
    + discriminate.
    + intros item Hin. unfold getAllDatabases in Hin.
      repeat (apply elem_of_cons in Hin as [-> | Hin];
              [discriminate|]).
      by apply elem_of_nil in Hin.
  - apply (getDatabaseByConnectionType_cases [cluster_3; redis_1; redis_2])
      with (l1 := [cluster_3]) (item := redis_1) (l2 := [redis_2]).
    + discriminate.
    + reflexivity.
    + intros item Hin.
      apply elem_of_cons in Hin as [-> | Hin]; [discriminate|].
      by apply elem_of_nil in Hin.
    + reflexivity.
Defined.

(** The loop of [deleteAllDatabasesApi] collects the ids of the records,
    in their order. *)
Lemma push_ids l (ids : list string) :
  foldl (λ databaseIds dbData, databaseIds ++ [id dbData]) ids l =
    ids ++ (id <$> l).
Proof.
  revert ids. induction l as [|item l IH]; intros ids; simpl.
  - by rewrite app_nil_r.
  - rewrite IH. by rewrite <- app_assoc.
Qed.

Lemma deleteDatabases_all srv : deleteDatabases (id <$> srv) srv = [].
Proof.
  apply filter_none, Forall_forall. intros item Hin Hid.
  apply Hid. by apply list_elem_of_fmap_2.
Qed.

(** X7. [deleteAllDatabasesApi] never throws and leaves the registry
    empty: it sends one DELETE that lists the id of every record, in the
    order of enumeration, and no request at all when there is no record.
    Afterwards no name resolves to an id, and a second call sends
    nothing. *)
Theorem deleteAllDatabasesApi_empties (w : world) :
  let w' := {| databases := [];
               deleted := deleted w ++
                 match databases w with
                 | [] => []
                 | _ :: _ => [id <$> databases w]
                 end |} in
  deleteAllDatabasesApi w = (Return (), w') ∧
  deleteAllDatabasesApi w' = (Return (), w') ∧
  ∀ n, n ≠ "" → getDatabaseIdByName (Some n) (databases w') = Return None.
Proof.
  destruct w as [srv log]. simpl.
  unfold deleteAllDatabasesApi, mbind, api_bind, reading, getAllDatabases.
  simpl. split_and!.
  - destruct srv as [|item srv]; [by rewrite app_nil_r|].
    rewrite decide_True by (simpl; lia).
    rewrite push_ids, app_nil_l.
    rewrite decide_True by (simpl; lia).
    unfold sendDelete. simpl. repeat f_equal.
    apply (deleteDatabases_all (item :: srv)).
  - done.
  - intros n Hn. by rewrite getDatabaseIdByName_filter.
Qed.

Lemma deleteDatabases_unknown (i : string) srv :
  (∀ item, item ∈ srv → id item ≠ i) → deleteDatabases [i] srv = srv.
Proof.
  intros Hnone. apply filter_all, Forall_forall.
  intros item Hin Hid%list_elem_of_singleton. by eapply Hnone.
Qed.

(** X8. [deleteOSSClusterDatabaseApi] throws 'Error: Missing
    databaseName' on an empty name, before any request. It does not test
    the id it gets: when no record has the name, it sends a DELETE for the
    id 'undefined' and resolves, the registry being the same afterwards
    unless a record has that id; otherwise it sends a DELETE for the id
    of the first record of that name. *)
Theorem deleteOSSClusterDatabaseApi_cases (p : OSSClusterParameters)
    (w : world) :
  (ossClusterDatabaseName p = "" →
   deleteOSSClusterDatabaseApi p w =
     (Throw "Error: Missing databaseName", w)) ∧
  (ossClusterDatabaseName p ≠ "" →
   (∀ item, item ∈ databases w → name item ≠ ossClusterDatabaseName p) →
   deleteOSSClusterDatabaseApi p w =
     (Return (),
      {| databases := deleteDatabases ["undefined"] (databases w);
         deleted := deleted w ++ [["undefined"]] |}) ∧
   ((∀ item, item ∈ databases w → id item ≠ "undefined") →
    deleteDatabases ["undefined"] (databases w) = databases w)) ∧
  (∀ l1 item l2,
     ossClusterDatabaseName p ≠ "" →
     databases w = l1 ++ item :: l2 →
     (∀ item', item' ∈ l1 → name item' ≠ ossClusterDatabaseName p) →
     name item = ossClusterDatabaseName p →
     deleteOSSClusterDatabaseApi p w =
       (Return (),
        {| databases := deleteDatabases [id item] (databases w);
           deleted := deleted w ++ [[id item]] |}) ∧
     (NoDup (id <$> databases w) →
      deleteDatabases [id item] (databases w) = l1 ++ l2)).
Proof.
  destruct p as [n], w as [srv log]. simpl.
  unfold deleteOSSClusterDatabaseApi, mbind, api_bind, reading. simpl.
  split_and!.
  - by intros ->.
  - intros Hn Hnone. rewrite getDatabaseIdByName_filter by done.
    rewrite filter_none.
    + split; [done|]. apply deleteDatabases_unknown.
    + apply Forall_forall. intros item Hin [=]. by eapply Hnone.
  - intros l1 item l2 Hn -> Hl1 Hitem.
    rewrite getDatabaseIdByName_filter by done.
    rewrite filter_first_match by done. split; [done|].
    apply deleteDatabases_single.
Qed.

Lemma deleteOSSClusterDatabaseApi_cases_witness :
  deleteOSSClusterDatabaseApi {| ossClusterDatabaseName := "" |}
    {| databases := [cluster_3]; deleted := [] |} =
    (Throw "Error: Missing databaseName",
     {| databases := [cluster_3]; deleted := [] |}) ∧
  deleteOSSClusterDatabaseApi {| ossClusterDatabaseName := "cluster" |}
    {| databases := [redis_1]; deleted := [] |} =
    (Return (), {| databases := [redis_1]; deleted := [["undefined"]] |}) ∧
  deleteOSSClusterDatabaseApi {| ossClusterDatabaseName := "cluster" |}
    {| databases := [redis_1; cluster_3]; deleted := [] |} =
    (Return (), {| databases := [redis_1]; deleted := [["id-3"]] |}).
Proof.
  split_and!.
  - apply (deleteOSSClusterDatabaseApi_cases
             {| ossClusterDatabaseName := "" |}
             {| databases := [cluster_3]; deleted := [] |}).
    reflexivity.
  - destruct (deleteOSSClusterDatabaseApi_cases
                {| ossClusterDatabaseName := "cluster" |}
                {| databases := [redis_1]; deleted := [] |})
      as (_ & Hnone & _).
    destruct Hnone as [Hrun _]; [discriminate| |exact Hrun].
    intros item Hin. apply list_elem_of_singleton in Hin. subst item.
    discriminate.
  - destruct (deleteOSSClusterDatabaseApi_cases
                {| ossClusterDatabaseName := "cluster" |}
                {| databases := [redis_1; cluster_3]; deleted := [] |})
      as (_ & _ & Hfirst).
    destruct (Hfirst [redis_1] cluster_3 []) as [Hrun _];
      [discriminate|reflexivity| |reflexivity|exact Hrun].
    intros item Hin. apply list_elem_of_singleton in Hin. subst item.
    discriminate.
Defined.

(** One turn of the loop of [deleteAllSentinelDatabasesApi] on a registry
    in which ids and names identify the records: the record of that name,
    if there is one, is gone. *)
Lemma delete_by_name_step n srv :
  n ≠ "" → NoDup (id <$> srv) → NoDup (name <$> srv) →
  (∀ item, item ∈ srv → id item ≠ "undefined") →
  ∃ databaseId,
    getDatabaseIdByName (Some n) srv = Return databaseId ∧
    deleteDatabases [template databaseId] srv =
      filter (λ item, name item ≠ n) srv.
Proof.
  intros Hn Hids Hnames Hundef.
  rewrite getDatabaseIdByName_filter, filter_name_Some by done.
  destruct (filter (λ item, name item = n) srv) as [|item rest] eqn:Hf.
  - exists None. split; [done|]. simpl.
    rewrite deleteDatabases_unknown by done. symmetry.
    apply filter_all, Forall_forall. intros item Hin Hname.
    eapply filter_nil_not_elem_of; [exact Hf|exact Hname|exact Hin].
  - exists (Some (id item)). split; [done|]. simpl.
    apply filter_head_split in Hf as (l1 & l2 & -> & Hl1 & Hitem & _).
    rewrite deleteDatabases_single by done.
    rewrite fmap_app, fmap_cons in Hnames.
    apply NoDup_app in Hnames as (_ & Hl1' & Hnames).
    apply NoDup_cons in Hnames as (Hl2 & _).
    rewrite filter_app, filter_cons_False by (intros H; by apply H).
    f_equal; symmetry; apply filter_all, Forall_forall.
    + intros item' Hin. by eapply Forall_forall in Hl1.
    + intros item' Hin Hname. apply Hl2. rewrite Hitem, <- Hname.
      by apply list_elem_of_fmap_2.
Qed.

Lemma filter_identified {B} (f : databaseParameters → B)
    (P : databaseParameters → Prop) `{!∀ x, Decision (P x)} srv :
  NoDup (f <$> srv) → NoDup (f <$> filter P srv).
Proof.
  intros Hnd. eapply sublist_NoDup; [exact Hnd|].
  apply fmap_sublist, sublist_filter.
Qed.

Lemma deleteSentinelDatabases_completes (names : list string) (w : world) :
  Forall (λ n, n ≠ "") names →
  ∃ w', deleteSentinelDatabases names w = (Return (), w') ∧
        length (deleted w') = (length (deleted w) + length names)%nat.
Proof.
  revert w. induction names as [|n names IH]; intros w Hnames.
  { exists w. split; [done|]. simpl. lia. }
  apply Forall_cons in Hnames as [Hn Hnames]. simpl.
  unfold mbind, api_bind, reading.
  rewrite getDatabaseIdByName_filter by done. simpl.
  destruct (IH {| databases :=
                    deleteDatabases
                      [template (id <$> head (filter
                         (λ item, Some (name item) = Some n) (databases w)))]
                      (databases w);
                  deleted := deleted w ++
                      [[template (id <$> head (filter
                         (λ item, Some (name item) = Some n) (databases w)))]]
               |} Hnames) as (w' & -> & Hlen).
  exists w'. split; [done|]. rewrite Hlen. simpl.
  rewrite length_app. simpl. lia.
Qed.

Lemma deleteSentinelDatabases_registry (names : list string) (w w' : world) :
  Forall (λ n, n ≠ "") names →
  NoDup (id <$> databases w) → NoDup (name <$> databases w) →
  (∀ item, item ∈ databases w → id item ≠ "undefined") →
  deleteSentinelDatabases names w = (Return (), w') →
  databases w' = filter (λ item, name item ∉ names) (databases w).
Proof.
  revert w. induction names as [|n names IH];
    intros w Hnames Hids Hnd Hundef Hrun.
  { injection Hrun as <-. symmetry. apply filter_all, Forall_forall.
    intros item _. apply not_elem_of_nil. }
  apply Forall_cons in Hnames as [Hn Hnames]. simpl in Hrun.
  unfold mbind, api_bind, reading in Hrun.
  destruct (delete_by_name_step n (databases w))
    as (databaseId & Hid & Hdel); [done..|].
  rewrite Hid in Hrun. simpl in Hrun. rewrite Hdel in Hrun.
  apply IH in Hrun; simpl; [|done|by apply filter_identified..|].
  - rewrite Hrun. simpl. rewrite list_filter_filter.
    apply list_filter_iff. intros item. rewrite not_elem_of_cons. tauto.
  - intros item [_ Hin]%list_elem_of_filter. by apply Hundef.
Qed.

(** X9. [deleteAllSentinelDatabasesApi] goes through the names one after
    the other. When none of them is empty it resolves after one DELETE per
    name; on a registry in which ids and names identify the records (and
    'undefined' is no id) the records left are those of the names that
    are not listed. At an empty name it throws 'Error: Missing
    databaseName', the deletions of the names before it being done; and
    without a list of names it throws before any request. *)
Theorem deleteAllSentinelDatabasesApi_removes (p : SentinelParameters)
    (w : world) :
  (sentinel_name p = None →
   deleteAllSentinelDatabasesApi p w =
     (Throw "Cannot read properties of undefined (reading 'length')", w)) ∧
  (∀ names, sentinel_name p = Some names → Forall (λ n, n ≠ "") names →
     ∃ w', deleteAllSentinelDatabasesApi p w = (Return (), w') ∧
           length (deleted w') = (length (deleted w) + length names)%nat ∧
           (NoDup (id <$> databases w) → NoDup (name <$> databases w) →
            (∀ item, item ∈ databases w → id item ≠ "undefined") →
            databases w' =
              filter (λ item, name item ∉ names) (databases w))) ∧
  (∀ done_ after, sentinel_name p = Some (done_ ++ "" :: after) →
     Forall (λ n, n ≠ "") done_ →
     ∃ w', deleteSentinelDatabases done_ w = (Return (), w') ∧
           deleteAllSentinelDatabasesApi p w =
             (Throw "Error: Missing databaseName", w')).
Proof.
  unfold deleteAllSentinelDatabasesApi. split_and!.
  - by intros ->.
  - intros names -> Hnames.
    destruct (deleteSentinelDatabases_completes names w Hnames)
      as (w' & Hrun & Hlen).
    exists w'. split_and!; [done..|].
    intros. by apply (deleteSentinelDatabases_registry names w w').
  - intros done_ after -> Hdone.
    destruct (deleteSentinelDatabases_completes done_ w Hdone)
      as (w' & Hrun & _).
    exists w'. split; [done|].
    clear Hdone. revert w Hrun.
    induction done_ as [|n done_ IH]; intros w Hrun.
    { by injection Hrun as <-. }
    simpl in *. unfold mbind, api_bind in *.
    destruct (reading _ w) as [[databaseId|message] w1]; [|done].
    destruct (sendDelete _ w1) as [[[]|message] w2]; [|done].
    by apply IH.
Qed.

Lemma deleteAllSentinelDatabasesApi_removes_witness :
  ∃ w', deleteAllSentinelDatabasesApi
          {| sentinelHost := "localhost"; sentinelPort := "26379";
             masters := None; sentinelPassword := None;
             sentinel_name := Some ["cluster"; "primary-group-2"] |}
          {| databases := [redis_1; cluster_3]; deleted := [] |} =
          (Return (), w') ∧
        length (deleted w') = 2%nat ∧
        databases w' = [redis_1].
Proof.
  destruct (deleteAllSentinelDatabasesApi_removes
              {| sentinelHost := "localhost"; sentinelPort := "26379";
                 masters := None; sentinelPassword := None;
                 sentinel_name := Some ["cluster"; "primary-group-2"] |}
              {| databases := [redis_1; cluster_3]; deleted := [] |})
    as (_ & Hnames & _).
  destruct (Hnames ["cluster"; "primary-group-2"]) as (w' & Hrun & Hlen & Hleft).
  - reflexivity.
  - repeat constructor; discriminate.
  - exists w'. split_and!; [exact Hrun|exact Hlen|].
    rewrite Hleft; [reflexivity|compute_done|compute_done|].
    intros item Hin.
    repeat (apply elem_of_cons in Hin as [-> | Hin]; [discriminate|]).
    by apply elem_of_nil in Hin.
Defined.

(** X10. [deleteAllDatabasesByConnectionTypeApi] deletes one record, the
    first of the connection type: the ids being distinct, the records of
    that type that come after it are all still there. With no record of
    the type, or an empty type, it throws before any DELETE. *)
Theorem deleteAllDatabasesByConnectionTypeApi_removes_first (n : string)
    (w : world) :
  (n = "" →
   deleteAllDatabasesByConnectionTypeApi n w =
     (Throw "Error: Missing connectionType", w)) ∧
  (n ≠ "" →
   (∀ item, item ∈ databases w → connectionType item ≠ n) →
   deleteAllDatabasesByConnectionTypeApi n w =
     (Throw "Cannot read properties of undefined (reading 'id')", w)) ∧
  (∀ l1 item l2,
     n ≠ "" → NoDup (id <$> databases w) →
     databases w = l1 ++ item :: l2 →
     (∀ item', item' ∈ l1 → connectionType item' ≠ n) →
     connectionType item = n →
     deleteAllDatabasesByConnectionTypeApi n w =
       (Return (),
        {| databases := l1 ++ l2; deleted := deleted w ++ [[id item]] |}) ∧
     filter (λ item', connectionType item' = n) (l1 ++ l2) =
       filter (λ item', connectionType item' = n) l2).
Proof.
  destruct w as [srv log]. simpl.
  unfold deleteAllDatabasesByConnectionTypeApi, mbind, api_bind, reading.
  simpl. split_and!.
  - by intros ->.
  - intros Hn Hnone. rewrite getDatabaseByConnectionType_filter by done.
    rewrite filter_none; [done|].
    apply Forall_forall. intros item Hin. by apply Hnone.
  - intros l1 item l2 Hn Hnd -> Hl1 Hitem.
    assert (filter (λ item', connectionType item' = n) l1 = []) as Hnone.
    { apply filter_none, Forall_forall. intros item' Hin. by apply Hl1. }
    rewrite getDatabaseByConnectionType_filter by done.
    rewrite !filter_app, filter_cons_True, Hnone by done. simpl.
    split; [|done]. unfold sendDelete. simpl.
    by rewrite deleteDatabases_single.
Qed.

Lemma deleteAllDatabasesByConnectionTypeApi_removes_first_witness :
  deleteAllDatabasesByConnectionTypeApi "STANDALONE"
    {| databases := [cluster_3; redis_1; redis_2]; deleted := [] |} =
    (Return (),
     {| databases := [cluster_3; redis_2]; deleted := [["id-1"]] |}) ∧
  filter (λ item', connectionType item' = "STANDALONE") [cluster_3; redis_2] =
    [redis_2].
Proof.
  destruct (deleteAllDatabasesByConnectionTypeApi_removes_first "STANDALONE"
              {| databases := [cluster_3; redis_1; redis_2]; deleted := [] |})
    as (_ & _ & Hfirst).
  destruct (Hfirst [cluster_3] redis_1 [redis_2]) as [Hrun Hleft].
  - discriminate.
  - compute_done.
  - reflexivity.
  - intros item Hin. apply list_elem_of_singleton in Hin. subst item.
    discriminate.
  - reflexivity.
  - split; [exact Hrun|exact Hleft].
Defined.

Lemma slice_from_0_prefix {A} (array : list A) (end_ : Z) :
  slice_from_0 array end_ `prefix_of` array.
Proof. unfold slice_from_0. case_decide; apply prefix_take. Qed.

Lemma slice_from_0_length {A} (array : list A) (end_ : Z) :
  Z.of_nat (length (slice_from_0 array end_)) =
    if decide (end_ < 0)%Z
    then Z.max 0 (Z.of_nat (length array) + end_)
    else Z.min end_ (Z.of_nat (length array)).
Proof.
  unfold slice_from_0. case_decide; rewrite length_take; lia.
Qed.

(** X11. The primary groups [discoverSentinelDatabaseApi] posts: all of
    [masters] when no number of groups is given, and when the number is 0;
    for a number [k] above 0 the first [k] of them (all of them when there
    are fewer), for a number below 0 all but the last [-k]. With a number
    other than 0 and no [masters] it throws before the request. *)
Theorem discoverSentinelDatabaseApi_masters (p : SentinelParameters)
    (primaryGroupsNumber : option Z) :
  (primaryGroupsNumber = None ∨ primaryGroupsNumber = Some 0%Z →
   ∃ requestBody,
     discoverSentinelDatabaseApi p primaryGroupsNumber = Return requestBody ∧
     sentinel_masters requestBody = masters p) ∧
  (∀ (k : Z) ms, primaryGroupsNumber = Some k → k ≠ 0%Z → masters p = Some ms →
     ∃ requestBody sent,
       discoverSentinelDatabaseApi p primaryGroupsNumber =
         Return requestBody ∧
       sentinel_masters requestBody = Some sent ∧
       sent `prefix_of` ms ∧
       Z.of_nat (length sent) =
         if decide (k < 0)%Z
         then Z.max 0 (Z.of_nat (length ms) + k)
         else Z.min k (Z.of_nat (length ms))) ∧
  (∀ k : Z, primaryGroupsNumber = Some k → k ≠ 0%Z → masters p = None →
     discoverSentinelDatabaseApi p primaryGroupsNumber =
       Throw "Cannot read properties of undefined (reading 'slice')").
Proof.
  unfold discoverSentinelDatabaseApi. split_and!.
  - intros [-> | ->]; eauto.
  - intros k ms -> Hk ->. rewrite decide_True by done.
    eexists _, _. split_and!; [done..| |].
    + apply slice_from_0_prefix.
    + apply slice_from_0_length.
  - intros k -> Hk ->. by rewrite decide_True.
Qed.

Lemma discoverSentinelDatabaseApi_masters_witness :
  (∃ requestBody,
     discoverSentinelDatabaseApi
       {| sentinelHost := "localhost"; sentinelPort := "26379";
          masters := Some [Json.JString "primary-group-1";
                           Json.JString "primary-group-2"];
          sentinelPassword := None; sentinel_name := None |}
       (Some 0%Z) = Return requestBody ∧
     sentinel_masters requestBody =
       Some [Json.JString "primary-group-1";
             Json.JString "primary-group-2"]) ∧
  (∃ requestBody sent,
     discoverSentinelDatabaseApi
       {| sentinelHost := "localhost"; sentinelPort := "26379";
          masters := Some [Json.JString "primary-group-1";
                           Json.JString "primary-group-2"];
          sentinelPassword := None; sentinel_name := None |}
       (Some 1%Z) = Return requestBody ∧
     sentinel_masters requestBody = Some sent ∧
     Z.of_nat (length sent) = 1%Z).
Proof.
  split.
  - apply (discoverSentinelDatabaseApi_masters
             {| sentinelHost := "localhost"; sentinelPort := "26379";
                masters := Some [Json.JString "primary-group-1";
                                 Json.JString "primary-group-2"];
                sentinelPassword := None; sentinel_name := None |}
             (Some 0%Z)).
    right. reflexivity.
  - destruct (discoverSentinelDatabaseApi_masters
                {| sentinelHost := "localhost"; sentinelPort := "26379";
                   masters := Some [Json.JString "primary-group-1";
                                    Json.JString "primary-group-2"];
                   sentinelPassword := None; sentinel_name := None |}
                (Some 1%Z)) as (_ & Hsome & _).
    destruct (Hsome 1%Z [Json.JString "primary-group-1";
                         Json.JString "primary-group-2"])
      as (requestBody & sent & Hrun & Hsent & _ & Hlen);
      [reflexivity|discriminate|reflexivity|].
    exists requestBody, sent. split_and!; [exact Hrun|exact Hsent|].
    rewrite Hlen. reflexivity.
Defined.

(** One call of the delete helper on a registry that has the name. *)
Lemma deleteStandaloneDatabaseApi_step p n srv item rest :
  databaseName p = Some n → n ≠ "" →
  NoDup (id <$> srv) → Forall (λ item, id item ≠ "") srv →
  filter (λ item, name item = n) srv = item :: rest →
  ∃ srv', deleteStandaloneDatabaseApi p srv = Return srv' ∧
          length srv = S (length srv') ∧
          NoDup (id <$> srv') ∧ Forall (λ item, id item ≠ "") srv' ∧
          filter (λ item, name item = n) srv' = rest ∧
          filter (λ item, name item ≠ n) srv' =
            filter (λ item, name item ≠ n) srv.
Proof.
  intros Hp Hn Hnd Hids Hf.
  apply filter_head_split in Hf as (l1 & l2 & -> & Hl1 & Hitem & Hrest).
  exists (l1 ++ l2). split_and!.
  - unfold deleteStandaloneDatabaseApi. rewrite Hp.
    rewrite (getDatabaseIdByName_filter n) by done.
    rewrite filter_first_match; [|by apply Forall_forall|done]. simpl.
    assert (id item ≠ "") as Hid%truthy_Some.
    { rewrite Forall_app, Forall_cons in Hids. tauto. }
    simpl in Hid. rewrite Hid. by rewrite deleteDatabases_single.
  - rewrite !length_app. simpl. lia.
  - eapply sublist_NoDup; [exact Hnd|].
    apply fmap_sublist, sublist_app; [done|by apply sublist_cons].
  - rewrite Forall_app, Forall_cons in Hids. rewrite Forall_app. tauto.
  - by rewrite filter_app, (filter_none _ l1), app_nil_l.
  - rewrite !filter_app. f_equal.
    by rewrite filter_cons_False by (intros H; by apply H).
Qed.

(** X18. Calling the delete helper again and again for one name, each
    call awaited before the next, removes the records of that name one by
    one, from the first: after as many calls as there are records of the
    name the registry holds the other records, as they were, and the call
    after that throws 'Error: Missing databaseId' (the ids of the records
    being distinct and not empty). *)
Theorem deleteStandaloneDatabaseApi_until_missing p n srv :
  databaseName p = Some n → n ≠ "" →
  NoDup (id <$> srv) → Forall (λ item, id item ≠ "") srv →
  deleteStandaloneDatabaseApi_times
    (length (filter (λ item, name item = n) srv)) p srv =
    Return (filter (λ item, name item ≠ n) srv) ∧
  deleteStandaloneDatabaseApi_times
    (S (length (filter (λ item, name item = n) srv))) p srv =
    Throw "Error: Missing databaseId".
Proof.
  intros Hp Hn.
  remember (length (filter (λ item, name item = n) srv)) as m eqn:Hm.
  revert srv Hm. induction m as [|m IH]; intros srv Hm Hnd Hids.
  - symmetry in Hm. apply length_zero_iff_nil in Hm.
    assert (∀ item, item ∈ srv → name item ≠ n) as Hnone.
    { intros item Hin Hname.
      eapply filter_nil_not_elem_of; [exact Hm|exact Hname|exact Hin]. }
    split.
    + simpl. f_equal. symmetry. by apply filter_all, Forall_forall.
    + simpl. unfold deleteStandaloneDatabaseApi. rewrite Hp.
      rewrite getDatabaseIdByName_filter by done.
      rewrite filter_none; [done|].
      apply Forall_forall. intros item Hin [=]. by eapply Hnone.
  - destruct (filter (λ item, name item = n) srv) as [|item rest] eqn:Hf;
      [done|].
    destruct (deleteStandaloneDatabaseApi_step p n srv item rest)
      as (srv' & Hrun & _ & Hnd' & Hids' & Hrest & Hothers); [done..|].
    destruct (IH srv') as [Hall Hnext]; [|done..|].
    { rewrite Hrest. simpl in Hm. lia. }
    change (deleteStandaloneDatabaseApi_times (S ?k) p srv)
      with (match deleteStandaloneDatabaseApi p srv with
            | Return srv' => deleteStandaloneDatabaseApi_times k p srv'
            | Throw message => Throw message
            end).
    rewrite Hrun. split; [|done]. by rewrite Hall, Hothers.
Qed.

Lemma deleteStandaloneDatabaseApi_until_missing_witness :
  deleteStandaloneDatabaseApi_times 2 {| databaseName := Some "redis" |}
    [redis_1; cluster_3; redis_2] = Return [cluster_3] ∧
  deleteStandaloneDatabaseApi_times 3 {| databaseName := Some "redis" |}
    [redis_1; cluster_3; redis_2] = Throw "Error: Missing databaseId".
Proof.
  apply (deleteStandaloneDatabaseApi_until_missing
           {| databaseName := Some "redis" |} "redis"
           [redis_1; cluster_3; redis_2]).
  - reflexivity.
  - discriminate.
  - compute_done.
  - repeat constructor; discriminate.
Defined.

End api_database.

(** ** The delete helpers that do not wait for their calls *)

Section delete_each.
Import Js ApiDatabase.

Implicit Types (srv : registry) (item : databaseParameters).
Implicit Types (w : world) (p : pool) (c : call) (cs : list call).
Implicit Types (ids : list string) (names : list (option string)).

Lemma sum_list_with_insert (f : call → nat) cs i c c' :
  cs !! i = Some c →
  (sum_list_with f (<[i:=c']> cs) + f c = sum_list_with f cs + f c')%nat.
Proof.
  intros Hi. rewrite insert_take_drop by (by eapply lookup_lt_Some).
  rewrite <- (take_drop_middle cs i c Hi) at 3.
  rewrite !sum_list_with_app. simpl. lia.
Qed.

Lemma pending_resume_lookup (databaseName : option string) srv :
  (pending (resume_lookup databaseName srv) ≤ 1)%nat ∧
  answered (resume_lookup databaseName srv) = 0%nat.
Proof.
  unfold resume_lookup.
  destruct (getDatabaseIdByName databaseName srv) as [databaseId|message];
    [|simpl; lia].
  destruct (truthy databaseId); simpl; lia.
Qed.

(** Each answer of the server brings the calls nearer to their end. *)
Lemma step_pending p p' :
  step p p' →
  (sum_list_with pending (calls p') < sum_list_with pending (calls p))%nat.
Proof.
  destruct 1 as [i databaseName w cs Hi | i databaseId w cs Hi]; simpl.
  - pose proof (sum_list_with_insert pending cs i _
                  (resume_lookup databaseName (databases w)) Hi).
    pose proof (pending_resume_lookup databaseName (databases w)).
    simpl in *. lia.
  - pose proof (sum_list_with_insert pending cs i _
                  (settled (Return ())) Hi).
    simpl in *. lia.
Qed.

Lemma nsteps_pending k p p' :
  nsteps step k p p' →
  (k + sum_list_with pending (calls p') ≤ sum_list_with pending (calls p))%nat.
Proof.
  induction 1 as [p | k p1 p2 p3 Hstep _ IH]; [done|].
  apply step_pending in Hstep. lia.
Qed.

Lemma quiescent_pending p :
  quiescent p ↔ sum_list_with pending (calls p) = 0%nat.
Proof.
  unfold quiescent. induction (calls p) as [|c cs IH]; simpl.
  { split; [done|constructor]. }
  rewrite Forall_cons, IH. split.
  - intros [[result ->] ->]. done.
  - intros Hsum. split; [|lia].
    destruct c; simpl in Hsum; [lia..|by eexists].
Qed.

Lemma unsettled_step p : ¬ quiescent p → ∃ p', step p p'.
Proof.
  destruct p as [w cs]. unfold quiescent. simpl. intros Hcs.
  assert (∃ i c, cs !! i = Some c ∧ ∀ result, c ≠ settled result)
    as (i & c & Hi & Hc).
  { induction cs as [|c cs IH]; [by destruct Hcs|].
    destruct c as [databaseName | databaseId | result].
    - by exists 0%nat, (awaiting_lookup databaseName).
    - by exists 0%nat, (awaiting_delete databaseId).
    - destruct IH as (i & c & Hi & Hc).
      + intros Hall. apply Hcs. constructor; [by eexists|done].
      + by exists (S i), c. }
  destruct c as [databaseName | databaseId | result].
  - eexists. by apply (step_lookup i databaseName).
  - eexists. by apply (step_delete i databaseId).
  - by destruct (Hc result).
Qed.

Global Instance quiescent_dec p : Decision (quiescent p).
Proof.
  refine (cast_if (decide (sum_list_with pending (calls p) = 0%nat)));
    by rewrite quiescent_pending.
Defined.

(** However far the calls have come, they can all be brought to an
    end. *)
Lemma settles p : ∃ p', rtc step p p' ∧ quiescent p'.
Proof.
  remember (sum_list_with pending (calls p)) as m eqn:Hm.
  revert p Hm. induction m as [m IH] using lt_wf_ind. intros p ->.
  destruct (decide (quiescent p)) as [Hq | Hq].
  { exists p. by split. }
  destruct (unsettled_step p Hq) as [p1 Hstep].
  destruct (IH _ (step_pending _ _ Hstep) p1 eq_refl) as (p' & Hrun & Hq').
  exists p'. split; [|done]. by eapply rtc_l.
Qed.

Lemma deleteDatabases_nil srv : deleteDatabases [] srv = srv.
Proof.
  apply filter_all, Forall_forall. intros item _. apply not_elem_of_nil.
Qed.

Lemma deleteDatabases_app ids (databaseId : string) srv :
  deleteDatabases [databaseId] (deleteDatabases ids srv) =
    deleteDatabases (ids ++ [databaseId]) srv.
Proof.
  unfold deleteDatabases. rewrite list_filter_filter.
  apply list_filter_iff. intros item.
  rewrite not_elem_of_app. tauto.
Qed.

Lemma elem_of_deleteDatabases item ids srv :
  item ∈ deleteDatabases ids srv ↔ (id item ∉ ids) ∧ item ∈ srv.
Proof. unfold deleteDatabases. by rewrite list_elem_of_filter. Qed.

Lemma call_invariant_mono srv0 srv srv' ids ids'
    (databaseName : option string) c :
  (∀ databaseId, databaseId ∈ ids → databaseId ∈ ids') →
  (∀ item, item ∈ srv' → item ∈ srv) →
  call_invariant srv0 srv ids databaseName c →
  call_invariant srv0 srv' ids' databaseName c.
Proof.
  intros Hids Hsrv. destruct c as [n | d | [[]|message]]; simpl; try done.
  - intros (item & ? & ? & ?). exists item. auto.
  - intros [? | [? Hnone]]; [by left|right]. split; [done|].
    intros Hnonempty item Hin. apply Hnone; auto.
Qed.

(** What a call knows when the server has answered its lookup. *)
Lemma call_invariant_resume srv0 ids (databaseName : option string) :
  call_invariant srv0 (deleteDatabases ids srv0) ids databaseName
    (resume_lookup databaseName (deleteDatabases ids srv0)).
Proof.
  unfold resume_lookup.
  destruct databaseName as [n|]; [|simpl; left; auto].
  destruct (decide (n = "")) as [-> | Hn]; [simpl; left; auto|].
  rewrite getDatabaseIdByName_filter by done.
  destruct (filter _ (deleteDatabases ids srv0)) as [|item rest] eqn:Hf;
    simpl.
  - right. split; [done|]. intros _ item Hin Hname.
    eapply filter_nil_not_elem_of; [exact Hf|exact Hname|exact Hin].
  - assert (item ∈ filter (λ item, Some (name item) = Some n)
                     (deleteDatabases ids srv0)) as Hin.
    { rewrite Hf. by left. }
    apply list_elem_of_filter in Hin as [[= Hname] Hin].
    apply elem_of_deleteDatabases in Hin as [_ Hin].
    destruct (String.eqb (id item) "") eqn:Hid; simpl.
    + right. split; [done|]. intros Hnonempty.
      apply String.eqb_eq in Hid.
      rewrite Forall_forall in Hnonempty. by destruct (Hnonempty item Hin).
    + apply String.eqb_neq in Hid. split; [done|].
      exists item. split_and!; [done|done|by f_equal|congruence].
Qed.

Lemma run_invariant_init names w :
  run_invariant names w
    {| server := w; calls := awaiting_lookup <$> names |}.
Proof.
  exists []. simpl. split_and!.
  - by rewrite app_nil_r.
  - by rewrite deleteDatabases_nil.
  - induction names as [|n names IH]; [done|]. exact IH.
  - constructor.
  - apply Forall2_fmap_r, Forall_Forall2_diag, Forall_forall. by intros.
Qed.

Lemma run_invariant_step names w0 p p' :
  run_invariant names w0 p → step p p' → run_invariant names w0 p'.
Proof.
  intros (ids & Hlog & Hsrv & Hlen & Hids & Hcalls) Hstep.
  destruct Hstep as [i databaseName w cs Hi | i databaseId w cs Hi];
    simpl in *.
  - destruct (Forall2_lookup_r _ _ _ _ _ Hcalls Hi) as (n & Hn & Hinv).
    simpl in Hinv. subst databaseName.
    exists ids. simpl. split_and!; [done|done| |done|].
    + pose proof (sum_list_with_insert answered cs i _
                    (resume_lookup n (databases w)) Hi).
      pose proof (pending_resume_lookup n (databases w)).
      simpl in *. lia.
    + rewrite <- (list_insert_id names i n Hn).
      apply Forall2_insert; [done|].
      rewrite Hsrv. apply call_invariant_resume.
  - destruct (Forall2_lookup_r _ _ _ _ _ Hcalls Hi) as (n & Hn & Hinv).
    simpl in Hinv. destruct Hinv as (Hid & item & Hin & Hitem & Hname & Hne).
    exists (ids ++ [databaseId]). simpl. split_and!.
    + rewrite Hlog, fmap_app. by rewrite <- app_assoc.
    + rewrite Hsrv. apply deleteDatabases_app.
    + pose proof (sum_list_with_insert answered cs i _
                    (settled (Return ())) Hi).
      rewrite length_app. simpl in *. lia.
    + apply Forall_app. split; [done|]. constructor; [|done].
      split; [done|]. exists item. split_and!; [done..| |done].
      rewrite Hname. by eapply list_elem_of_lookup_2.
    + rewrite <- (list_insert_id names i n Hn).
      apply Forall2_insert.
      * eapply Forall2_impl; [exact Hcalls|].
        intros n' c'. apply call_invariant_mono.
        -- intros d Hd. apply elem_of_app. by left.
        -- intros item' Hin'. by apply elem_of_deleteDatabases in Hin' as [_ ?].
      * simpl. exists item. split_and!; [done..|].
        apply elem_of_app. right. rewrite Hitem. by left.
Qed.

Lemma run_invariant_rtc names w p :
  rtc step {| server := w; calls := awaiting_lookup <$> names |} p →
  run_invariant names w p.
Proof.
  revert p. apply rtc_ind_r; [apply run_invariant_init|].
  intros p1 p2 _ Hstep IH. by eapply run_invariant_step.
Qed.

Lemma answered_length cs : (sum_list_with answered cs ≤ length cs)%nat.
Proof.
  induction cs as [|c cs IH]; simpl; [done|].
  destruct c as [| |[]]; simpl; lia.
Qed.

Lemma pending_awaiting_lookup names :
  sum_list_with pending (awaiting_lookup <$> names) = (2 * length names)%nat.
Proof.
  induction names as [|n names IH]; [done|].
  rewrite fmap_cons. simpl. rewrite IH. lia.
Qed.

Lemma filter_ext_elem_of (P Q : databaseParameters → Prop)
    `{!∀ x, Decision (P x), !∀ x, Decision (Q x)} srv :
  (∀ item, item ∈ srv → P item ↔ Q item) → filter P srv = filter Q srv.
Proof.
  induction srv as [|item srv IH]; intros Hext; [done|].
  rewrite !filter_cons.
  rewrite IH by (intros; apply Hext; by right).
  destruct (Hext item) as [HPQ HQP]; [by left|].
  by repeat case_decide; auto; tauto.
Qed.

(** What is left when all the calls have settled, on a registry in which
    ids and names identify the records. *)
Lemma run_settled names w p :
  NoDup (id <$> databases w) → NoDup (name <$> databases w) →
  Forall (λ item, id item ≠ "") (databases w) →
  rtc step {| server := w; calls := awaiting_lookup <$> names |} p →
  quiescent p →
  databases (server p) =
    filter (λ item, Some (name item) ∉ names ∨ name item = "") (databases w).
Proof.
  intros Hnd_id Hnd_name Hnonempty Hrun Hq.
  destruct (run_invariant_rtc names w p Hrun)
    as (ids & _ & Hsrv & _ & Hids & Hcalls).
  rewrite Hsrv. apply filter_ext_elem_of. intros item Hin.
  rewrite Forall_forall in Hids. split.
  - intros Hid.
    destruct (decide (name item = "")) as [|Hne]; [by right|].
    left. intros (i & Hi)%list_elem_of_lookup_1.
    destruct (Forall2_lookup_l _ _ _ _ _ Hcalls Hi) as (c & Hc & Hinv).
    unfold quiescent in Hq. rewrite Forall_forall in Hq.
    destruct (Hq c) as [result ->]; [by eapply list_elem_of_lookup_2|].
    destruct result as [[]|message]; simpl in Hinv.
    + destruct Hinv as (item' & Hin' & [= Hname] & Hid').
      by rewrite (NoDup_fmap_eq name _ _ _ Hnd_name Hin Hin') in Hid.
    + destruct Hinv as [[_ [? | [= ?]]] | [_ Hnone]]; [done..|].
      apply (Hnone Hnonempty item); [|done].
      rewrite Hsrv. by apply elem_of_deleteDatabases.
  - intros Hname Hid.
    destruct (Hids _ Hid) as (_ & item' & Hin' & Hid' & Hlisted & Hne).
    rewrite (NoDup_fmap_eq id _ _ _ Hnd_id Hin' Hin) in Hlisted, Hne by done.
    by destruct Hname.
Qed.

Lemma deleteStandaloneDatabasesByNamesApi_pool (databaseNames : list string)
    w :
  (deleteStandaloneDatabasesByNamesApi databaseNames w).2 =
    {| server := w; calls := awaiting_lookup <$> (Some <$> databaseNames) |}.
Proof. simpl. by rewrite <- list_fmap_compose. Qed.

Lemma deleteStandaloneDatabasesApi_pool
    (databasesParameters : list AddNewDatabaseParameters) w :
  (deleteStandaloneDatabasesApi databasesParameters w).2 =
    {| server := w;
       calls := awaiting_lookup <$> (databaseName <$> databasesParameters) |}.
Proof.
  simpl. f_equal. case_decide as Hlen.
  - by rewrite <- list_fmap_compose.
  - by destruct databasesParameters.
Qed.

Lemma settled_pool_run :
  rtc step
    (deleteStandaloneDatabasesByNamesApi ["redis"; "sentinel"]
       {| databases := [redis_1; cluster_3]; deleted := [] |}).2
    settled_pool.
Proof.
  eapply rtc_l; [by apply (step_lookup 0 (Some "redis"))|].
  eapply rtc_l; [by apply (step_delete 0 "id-1")|].
  eapply rtc_l; [by apply (step_lookup 1 (Some "sentinel"))|].
  apply rtc_refl.
Qed.

Lemma settled_pool_quiescent : quiescent settled_pool.
Proof. repeat constructor; by eexists. Qed.

(** X20. [deleteStandaloneDatabasesByNamesApi] resolves at once, whatever
    the names, and never rejects: nothing is deleted when it resolves, the
    calls it has started go on after it, and what one of them throws does
    not reach the caller. In whatever order the server answers, it gets at
    most one DELETE for each name, each of them for the id of a record
    that had one of the names, and the registry is what these deletions
    leave. *)
Theorem deleteStandaloneDatabasesByNamesApi_runs
    (databaseNames : list string) w p :
  rtc step (deleteStandaloneDatabasesByNamesApi databaseNames w).2 p →
  (deleteStandaloneDatabasesByNamesApi databaseNames w).1 = Return () ∧
  server (deleteStandaloneDatabasesByNamesApi databaseNames w).2 = w ∧
  ∃ ids,
    deleted (server p) =
      deleted w ++ ((λ databaseId, [databaseId]) <$> ids) ∧
    databases (server p) = deleteDatabases ids (databases w) ∧
    (length ids ≤ length databaseNames)%nat ∧
    Forall (λ databaseId,
              ∃ item, item ∈ databases w ∧ id item = databaseId ∧
                      name item ∈ databaseNames) ids.
Proof.
  rewrite deleteStandaloneDatabasesByNamesApi_pool.
  intros (ids & Hlog & Hsrv & Hlen & Hids & Hcalls)%run_invariant_rtc.
  split_and!; [done..|]. exists ids. split_and!; [done..| |].
  - rewrite Hlen. etransitivity; [apply answered_length|].
    apply Forall2_length in Hcalls. rewrite <- Hcalls.
    by rewrite length_fmap.
  - eapply Forall_impl; [exact Hids|]. simpl.
    intros databaseId (_ & item & Hin & Hid & Hname & _).
    exists item. split_and!; [done..|].
    by apply list_elem_of_fmap in Hname as (n & [= ->] & ?).
Qed.

Lemma deleteStandaloneDatabasesByNamesApi_runs_witness :
  ∃ ids,
    deleted (server settled_pool) =
      [] ++ ((λ databaseId, [databaseId]) <$> ids) ∧
    databases (server settled_pool) =
      deleteDatabases ids [redis_1; cluster_3] ∧
    (length ids ≤ 2)%nat.
Proof.
  destruct (deleteStandaloneDatabasesByNamesApi_runs ["redis"; "sentinel"]
              {| databases := [redis_1; cluster_3]; deleted := [] |}
              settled_pool settled_pool_run)
    as (_ & _ & ids & Hlog & Hsrv & Hlen & _).
  exists ids. split_and!; [exact Hlog|exact Hsrv|exact Hlen].
Defined.

(** X21. The calls [deleteStandaloneDatabasesByNamesApi] has started
    settle, all of them, after at most two answers of the server for each
    name, whatever the order of the answers; and on a registry in which
    ids and names identify the records (no id being empty) what is left
    when they have settled does not depend on that order: the records
    whose name is not listed, or is empty. *)
Theorem deleteStandaloneDatabasesByNamesApi_settles
    (databaseNames : list string) w :
  (∀ k p, nsteps step k
            (deleteStandaloneDatabasesByNamesApi databaseNames w).2 p →
          (k ≤ 2 * length databaseNames)%nat) ∧
  (∀ p, rtc step (deleteStandaloneDatabasesByNamesApi databaseNames w).2 p →
        ∃ p', rtc step p p' ∧ quiescent p') ∧
  (NoDup (id <$> databases w) → NoDup (name <$> databases w) →
   Forall (λ item, id item ≠ "") (databases w) →
   ∀ p, rtc step (deleteStandaloneDatabasesByNamesApi databaseNames w).2 p →
        quiescent p →
        databases (server p) =
          filter (λ item, name item ∉ databaseNames ∨ name item = "")
                 (databases w)).
Proof.
  rewrite deleteStandaloneDatabasesByNamesApi_pool. split_and!.
  - intros k p Hrun%nsteps_pending. simpl in Hrun.
    rewrite pending_awaiting_lookup, length_fmap in Hrun. lia.
  - intros p _. apply settles.
  - intros Hnd_id Hnd_name Hnonempty p Hrun Hq.
    rewrite (run_settled _ w p) by done.
    apply list_filter_iff. intros item.
    assert (Some (name item) ∈ Some <$> databaseNames ↔
            name item ∈ databaseNames) as ->; [|done].
    split; [|apply list_elem_of_fmap_2].
    by intros (n & [= ->] & ?)%list_elem_of_fmap.
Qed.

Lemma deleteStandaloneDatabasesByNamesApi_settles_witness :
  databases (server settled_pool) =
    filter (λ item, name item ∉ ["redis"; "sentinel"] ∨ name item = "")
           [redis_1; cluster_3].
Proof.
  destruct (deleteStandaloneDatabasesByNamesApi_settles ["redis"; "sentinel"]
              {| databases := [redis_1; cluster_3]; deleted := [] |})
    as (_ & _ & Hleft).
  apply Hleft.
  - compute_done.
  - compute_done.
  - repeat constructor; discriminate.
  - apply settled_pool_run.
  - apply settled_pool_quiescent.
Defined.

(** With two records of one name, and the name listed twice, what is left
    depends on the order of the answers: both lookups answered before a
    deletion find the same record, and the other one is left. *)
Example delete_by_names_race :
  ∃ p1 p2,
    rtc step (deleteStandaloneDatabasesByNamesApi ["redis"; "redis"]
                {| databases := [redis_1; redis_2]; deleted := [] |}).2 p1 ∧
    rtc step (deleteStandaloneDatabasesByNamesApi ["redis"; "redis"]
                {| databases := [redis_1; redis_2]; deleted := [] |}).2 p2 ∧
    quiescent p1 ∧ quiescent p2 ∧
    databases (server p1) = [redis_2] ∧ databases (server p2) = [].
Proof.
  eexists _, _. split_and!.
  - eapply rtc_l; [by apply (step_lookup 0 (Some "redis"))|].
    eapply rtc_l; [by apply (step_lookup 1 (Some "redis"))|].
    eapply rtc_l; [by apply (step_delete 0 "id-1")|].
    eapply rtc_l; [by apply (step_delete 1 "id-1")|].
    apply rtc_refl.
  - eapply rtc_l; [by apply (step_lookup 0 (Some "redis"))|].
    eapply rtc_l; [by apply (step_delete 0 "id-1")|].
    eapply rtc_l; [by apply (step_lookup 1 (Some "redis"))|].
    eapply rtc_l; [by apply (step_delete 1 "id-2")|].
    apply rtc_refl.
  - repeat constructor; by eexists.
  - repeat constructor; by eexists.
  - reflexivity.
  - reflexivity.
Qed.

(** X22. [deleteStandaloneDatabasesApi] is of the same kind: it resolves
    at once and never rejects, its calls settle whatever the order of the
    answers of the server, and on a registry in which ids and names
    identify the records (no id being empty) they leave the records whose
    name is not one of the database names given, or is empty. *)
Theorem deleteStandaloneDatabasesApi_settles
    (databasesParameters : list AddNewDatabaseParameters) w :
  (deleteStandaloneDatabasesApi databasesParameters w).1 = Return () ∧
  server (deleteStandaloneDatabasesApi databasesParameters w).2 = w ∧
  (∀ p, rtc step (deleteStandaloneDatabasesApi databasesParameters w).2 p →
        ∃ p', rtc step p p' ∧ quiescent p') ∧
  (NoDup (id <$> databases w) → NoDup (name <$> databases w) →
   Forall (λ item, id item ≠ "") (databases w) →
   ∀ p, rtc step (deleteStandaloneDatabasesApi databasesParameters w).2 p →
        quiescent p →
        databases (server p) =
          filter (λ item,
                    Some (name item) ∉ databaseName <$> databasesParameters ∨
                    name item = "")
                 (databases w)).
Proof.
  rewrite deleteStandaloneDatabasesApi_pool. split_and!; [done..| |].
  - intros p _. apply settles.
  - intros Hnd_id Hnd_name Hnonempty p Hrun Hq.
    by apply (run_settled (databaseName <$> databasesParameters) w p).
Qed.

Lemma deleteStandaloneDatabasesApi_settles_witness :
  databases (server settled_pool) =
    filter (λ item,
              Some (name item) ∉ [Some "redis"; Some "sentinel"] ∨
              name item = "")
           [redis_1; cluster_3].
Proof.
  destruct (deleteStandaloneDatabasesApi_settles
              [{| databaseName := Some "redis" |};
               {| databaseName := Some "sentinel" |}]
              {| databases := [redis_1; cluster_3]; deleted := [] |})
    as (_ & _ & _ & Hleft).
  apply Hleft.
  - compute_done.
  - compute_done.
  - repeat constructor; discriminate.
  - exact settled_pool_run.
  - apply settled_pool_quiescent.
Defined.

End delete_each.

(** ** ConsumersView.tsx *)

Section consumers_view.
Import Lodash ConsumersView.
Local Open Scope Z_scope.

Implicit Types (a b c : value) (s t : string) (order : SortOrder).
Implicit Types (column : string) (x y z : sortable ConsumerDto).
Implicit Types (l : list ConsumerDto) (r : ConsumerDto).

(** *** The order of strings *)

Lemma string_compare_Eq s t : String_as_OT.compare s t = Eq ↔ s = t.
Proof.
  destruct (String_as_OT.compare_spec s t) as [Heq | Hlt | Hlt];
    split; try done; intros ->;
    by apply (irreflexivity String_as_OT.lt) in Hlt.
Qed.

Lemma string_compare_Gt s t :
  String_as_OT.compare s t = Gt ↔ String_as_OT.compare t s = Lt.
Proof.
  destruct (String_as_OT.compare_spec s t) as [-> | Hlt | Hlt].
  - rewrite (proj2 (string_compare_Eq t t)) by done. split; discriminate.
  - split; [discriminate|]. intros Hts.
    by destruct (irreflexivity _ s (transitivity Hlt Hts)).
  - done.
Qed.

Lemma string_compare_trans s t u :
  String_as_OT.compare s t ≠ Gt → String_as_OT.compare t u ≠ Gt →
  String_as_OT.compare s u ≠ Gt.
Proof.
  rewrite !string_compare_Gt. intros Hts Hut Hus.
  destruct (String_as_OT.compare_spec s t) as [-> | Hst | Hst]; [done| |done].
  destruct (String_as_OT.compare_spec t u) as [-> | Htu | Htu]; [done| |done].
  apply (irreflexivity String_as_OT.lt s).
  by do 2 (etransitivity; [eassumption|]).
Qed.

(** *** The order of the values of a column *)

Lemma value_le_refl a : value_le a a.
Proof.
  destruct a; simpl; [done|lia|].
  by rewrite (proj2 (string_compare_Eq _ _)).
Qed.

Lemma value_le_antisym a b : value_le a b → value_le b a → a = b.
Proof.
  destruct a, b; simpl; try done.
  - intros. f_equal. lia.
  - intros Hst Hts. f_equal.
    destruct (String_as_OT.compare_spec s s0) as [-> | Hlt | Hlt];
      [done| |done].
    by apply string_compare_Gt in Hlt.
Qed.

Lemma value_le_trans a b c : value_le a b → value_le b c → value_le a c.
Proof.
  destruct a, b, c; simpl; try done; [lia|]. apply string_compare_trans.
Qed.

Lemma value_le_total a b : same_kind a b → value_le a b ∨ value_le b a.
Proof.
  destruct a, b; simpl; try done; [auto|lia|].
  intros _. destruct (String_as_OT.compare s s0) eqn:Hc; auto.
  right. apply string_compare_Gt in Hc. by rewrite Hc.
Qed.

Lemma in_order_refl order a : in_order order a a.
Proof. destruct order; apply value_le_refl. Qed.

Lemma in_order_antisym order a b :
  in_order order a b → in_order order b a → a = b.
Proof. destruct order; simpl; eauto using value_le_antisym, eq_sym. Qed.

Lemma in_order_trans order a b c :
  in_order order a b → in_order order b c → in_order order a c.
Proof. destruct order; simpl; eauto using value_le_trans. Qed.

Lemma in_order_total order a b :
  same_kind a b → in_order order a b ∨ in_order order b a.
Proof.
  intros H. destruct order; simpl; destruct (value_le_total a b H); auto.
Qed.

(** One column holds values of one kind. *)
Lemma get_same_kind column (c1 c2 : ConsumerDto) :
  same_kind (get c1 column) (get c2 column).
Proof. unfold get. by repeat case_decide. Qed.

(** [compareAscending] on two values of one kind is the sign of their
    comparison. *)
Lemma compareAscending_sign a b :
  same_kind a b →
  (a = b ∧ compareAscending a b = 0) ∨
  (a ≠ b ∧ value_le a b ∧ compareAscending a b = -1) ∨
  (a ≠ b ∧ value_le b a ∧ compareAscending a b = 1).
Proof.
  unfold compareAscending. intros Hk.
  case_decide as Hne;
    [|left; split; [by destruct (decide (a = b)); [|destruct Hne]|done]].
  right. destruct a as [|x|s], b as [|y|t]; simpl in *; try done.
  - assert (x ≠ y) by congruence. rewrite !orb_false_r.
    destruct (decide (y < x)) as [Hyx | Hyx].
    + right. rewrite bool_decide_eq_true_2 by done.
      split_and!; [done|lia|done].
    + left. rewrite bool_decide_eq_false_2 by done.
      rewrite bool_decide_eq_true_2 by lia.
      split_and!; [done|lia|done].
  - assert (s ≠ t) as Hst by congruence.
    rewrite <- string_compare_Eq in Hst.
    rewrite !orb_false_r.
    destruct (String_as_OT.compare s t) eqn:Hc; [done| |].
    + left. rewrite bool_decide_eq_false_2, bool_decide_eq_true_2 by done.
      done.
    + right. rewrite bool_decide_eq_true_2 by done.
      apply string_compare_Gt in Hc. by rewrite Hc.
Qed.

(** *** The comparer of [orderBy] on the rows of one column *)

Lemma compareMultiple_single x y (o : string) a b :
  criteria x = [a] → criteria y = [b] →
  compareMultiple x y [o] =
    if decide (compareAscending a b ≠ 0)
    then compareAscending a b * (if decide (o = "desc") then -1 else 1)
    else Z.of_nat (index x) - Z.of_nat (index y).
Proof.
  intros Hx Hy. unfold compareMultiple. rewrite Hx, Hy. simpl.
  by case_decide.
Qed.

Lemma before_row_before column order x y :
  criteria x = [get (value_of x) column] →
  criteria y = [get (value_of y) column] →
  before (λ object other,
            compareMultiple object other [toLowerCase order]) x y ↔
  row_before column order x y.
Proof.
  intros Hx Hy. unfold before, row_before.
  rewrite (compareMultiple_single _ _ _ _ _ Hx Hy).
  destruct (compareAscending_sign _ _
              (get_same_kind column (value_of x) (value_of y)))
    as [[Heq ->] | [(Hne & Hle & ->) | (Hne & Hle & ->)]].
  - case_decide; [lia|]. split; [right; split; [done|lia]|].
    intros [[_ ?] | [_ ?]]; [done|lia].
  - case_decide; [|lia].
    destruct order; simpl.
    + split; [by left|lia].
    + split; [lia|].
      intros [[Hge _] | [? _]]; [|done].
      by destruct Hne; apply value_le_antisym.
  - case_decide; [|lia].
    destruct order; simpl.
    + split; [lia|].
      intros [[Hge _] | [? _]]; [|done].
      by destruct Hne; apply value_le_antisym.
    + split; [by left|lia].
Qed.

Lemma row_before_total column order x y :
  row_before column order x y ∨ row_before column order y x.
Proof.
  unfold row_before.
  destruct (decide (get (value_of x) column = get (value_of y) column))
    as [Heq | Hne].
  - destruct (decide (index x ≤ index y)%nat); [left|right]; right;
      (split; [done|lia]).
  - destruct (in_order_total order _ _
                (get_same_kind column (value_of x) (value_of y)));
      [left|right]; left; split; done.
Qed.

Lemma row_before_trans column order x y z :
  row_before column order x y → row_before column order y z →
  row_before column order x z.
Proof.
  unfold row_before.
  intros [[Hxy Hne] | [Hxy Hi]] [[Hyz Hne'] | [Hyz Hi']].
  - left. split; [by eapply in_order_trans|].
    intros Heq. rewrite Heq in Hxy.
    by destruct Hne'; apply (in_order_antisym order).
  - left. by rewrite <- Hyz.
  - left. by rewrite Hxy.
  - right. split; [congruence|lia].
Qed.

(** Rows of equal values stand in the order of their places. *)
Lemma row_before_same_value column order x y :
  get (value_of x) column = get (value_of y) column →
  row_before column order x y → (index x ≤ index y)%nat.
Proof. intros Heq [[_ Hne] | [_ Hi]]; done. Qed.

Lemma row_before_in_order column order x y :
  row_before column order x y →
  in_order order (get (value_of x) column) (get (value_of y) column).
Proof.
  intros [[H _] | [Heq _]]; [done|]. rewrite Heq. apply in_order_refl.
Qed.

(** *** The objects that are sorted *)

Lemma sortables_cons column n (v : ConsumerDto) l :
  sortables column n (v :: l) =
    {| criteria := [get v column]; index := n; value_of := v |}
      :: sortables column (S n) l.
Proof.
  unfold sortables. rewrite imap_cons. f_equal.
  - f_equal. lia.
  - apply imap_ext. intros i w _. simpl. f_equal. lia.
Qed.

Lemma sortables_value_of column n l :
  value_of <$> sortables column n l = l.
Proof.
  revert n. induction l as [|v l IH]; intros n; [done|].
  rewrite sortables_cons. csimpl. by rewrite IH.
Qed.

Lemma sortables_criteria column n l :
  Forall (λ x, criteria x = [get (value_of x) column])
         (sortables column n l).
Proof.
  revert n. induction l as [|v l IH]; intros n; [constructor|].
  rewrite sortables_cons. by constructor.
Qed.

Lemma sortables_index column n l :
  Forall (λ x, (n ≤ index x)%nat) (sortables column n l) ∧
  StronglySorted (λ x y, (index x < index y)%nat) (sortables column n l).
Proof.
  revert n. induction l as [|v l IH]; intros n.
  { split; constructor. }
  rewrite sortables_cons. destruct (IH (S n)) as [Hge Hsorted].
  split.
  - constructor; [done|]. eapply Forall_impl; [exact Hge|].
    simpl. lia.
  - constructor; [done|]. eapply Forall_impl; [exact Hge|].
    simpl. lia.
Qed.

Lemma sortables_same_index column n l x y :
  x ∈ sortables column n l → y ∈ sortables column n l →
  index x = index y → x = y.
Proof.
  intros Hx Hy Hi.
  destruct (StronglySorted_elem_of _ _ _ _
              (proj2 (sortables_index column n l)) Hx Hy)
    as [? | [? | ?]]; [done|lia..].
Qed.

(** *** What [orderBy] returns *)

Lemma orderBy_sortables l column order :
  orderBy get l column (Some (toLowerCase order)) =
    value_of <$>
      baseSortBy (sortables column 0 l)
        (λ object other, compareMultiple object other [toLowerCase order]).
Proof. reflexivity. Qed.

Lemma sorted_sortables column order l :
  baseSortBy (sortables column 0 l)
    (λ object other, compareMultiple object other [toLowerCase order])
    ≡ₚ sortables column 0 l ∧
  StronglySorted (row_before column order)
    (baseSortBy (sortables column 0 l)
       (λ object other, compareMultiple object other [toLowerCase order])).
Proof.
  set (rows := baseSortBy _ _).
  assert (rows ≡ₚ sortables column 0 l) as Hperm
    by apply baseSortBy_Permutation.
  split; [done|].
  assert (Forall (λ x, criteria x = [get (value_of x) column]) rows) as HD.
  { rewrite Hperm. apply sortables_criteria. }
  rewrite Forall_forall in HD.
  eapply StronglySorted_weaken; last first.
  - apply (baseSortBy_sorted _
             (λ x, criteria x = [get (value_of x) column])).
    + intros x y Hx Hy. rewrite !before_row_before by done.
      apply row_before_total.
    + intros x y z Hx Hy Hz. rewrite !before_row_before by done.
      apply row_before_trans.
    + apply sortables_criteria.
  - intros x y Hx Hy. by rewrite before_row_before by auto.
Qed.

(** The engine's own algorithm does not matter: the rows have one sorted
    arrangement only. *)
Lemma sorted_sortables_unique column order l rows :
  rows ≡ₚ sortables column 0 l →
  StronglySorted
    (before (λ object other,
               compareMultiple object other [toLowerCase order])) rows →
  rows =
    baseSortBy (sortables column 0 l)
      (λ object other, compareMultiple object other [toLowerCase order]).
Proof.
  intros Hperm Hsorted.
  destruct (sorted_sortables column order l) as [Hperm' Hsorted'].
  assert (Forall (λ x, criteria x = [get (value_of x) column]) rows) as HD.
  { rewrite Hperm. apply sortables_criteria. }
  rewrite Forall_forall in HD.
  apply (StronglySorted_unique_strong (row_before column order)).
  - intros x y Hx Hy Hxy Hyx.
    rewrite Hperm in Hx. rewrite Hperm' in Hy.
    apply (sortables_same_index column 0 l); [done..|].
    destruct Hxy as [[Hxy Hne] | [Heq Hi]].
    + destruct Hyx as [[Hyx _] | [Heq _]]; [|done].
      by destruct Hne; apply (in_order_antisym order).
    + apply row_before_same_value in Hyx; [lia|done].
  - eapply StronglySorted_weaken; [|exact Hsorted].
    intros x y Hx Hy. by rewrite before_row_before by auto.
  - done.
  - by rewrite Hperm, Hperm'.
Qed.

Lemma orderBy_Permutation l column order :
  orderBy get l column (Some (toLowerCase order)) ≡ₚ l.
Proof.
  rewrite orderBy_sortables.
  destruct (sorted_sortables column order l) as [Hperm _].
  by rewrite Hperm, sortables_value_of.
Qed.

Lemma orderBy_in_order l column order :
  StronglySorted
    (λ r1 r2, in_order order (get r1 column) (get r2 column))
    (orderBy get l column (Some (toLowerCase order))).
Proof.
  rewrite orderBy_sortables.
  destruct (sorted_sortables column order l) as [_ Hsorted].
  eapply StronglySorted_fmap; [|exact Hsorted].
  intros x y. apply row_before_in_order.
Qed.

Lemma orderBy_stable l column order (k : value) :
  filter (λ r, get r column = k)
         (orderBy get l column (Some (toLowerCase order))) =
  filter (λ r, get r column = k) l.
Proof.
  rewrite orderBy_sortables.
  destruct (sorted_sortables column order l) as [Hperm Hsorted].
  rewrite <- (sortables_value_of column 0 l) at 2.
  rewrite !filter_fmap. f_equal.
  apply (StronglySorted_unique_strong (λ x y, (index x ≤ index y)%nat)).
  - intros x y [_ Hx]%list_elem_of_filter [_ Hy]%list_elem_of_filter ??.
    rewrite Hperm in Hx.
    apply (sortables_same_index column 0 l); [done..|lia].
  - eapply StronglySorted_weaken;
      [|by apply StronglySorted_filter, Hsorted].
    intros x y [Hx _]%list_elem_of_filter [Hy _]%list_elem_of_filter.
    apply row_before_same_value. congruence.
  - apply StronglySorted_filter.
    eapply StronglySorted_weaken;
      [|exact (proj2 (sortables_index column 0 l))].
    intros x y _ _. simpl. lia.
  - by rewrite Hperm.
Qed.



Example sort_by_pending_desc :
  consumers (onChangeSorting "pending" DESC (initial [bob; alice; dave; carol]))
  = [alice; carol; dave; bob].
Proof. reflexivity. Qed.

Example sort_by_idle_asc :
  consumers (onChangeSorting "idle" ASC (initial [alice; dave; carol; bob]))
  = [dave; bob; carol; alice].
Proof. reflexivity. Qed.

Example sort_by_name_desc :
  consumers (onChangeSorting "name" DESC (initial [bob; alice; dave; carol]))
  = [dave; carol; bob; alice].
Proof. reflexivity. Qed.

Example sort_by_unknown_column :
  consumers (onChangeSorting "actions" DESC (initial [bob; alice; dave; carol]))
  = [bob; alice; dave; carol].
Proof. reflexivity. Qed.

(** *** The component over its life *)

Lemma reachable_sorted (data : list ConsumerDto) (s : state) :
  reachable data s →
  consumers s ≡ₚ data ∧
  StronglySorted
    (λ r1 r2, in_order (sortedColumnOrder s)
                (get r1 (sortedColumnName s)) (get r2 (sortedColumnName s)))
    (consumers s).
Proof.
  induction 1 as [data | data data' s _ _ | data column order s _ [IH _]].
  - split; [apply (orderBy_Permutation _ "name" ASC)
           |apply (orderBy_in_order _ "name" ASC)].
  - split; [apply orderBy_Permutation|apply orderBy_in_order].
  - split; [|apply orderBy_in_order].
    simpl. by rewrite orderBy_Permutation.
Qed.

Lemma initial_reachable :
  reachable [bob; alice; dave; carol]
    (onChangeSorting "pending" DESC
       (onData [bob; alice; dave; carol] (initial [bob; alice; dave; carol]))).
Proof. repeat constructor. Qed.



Lemma filter_comm (P Q : ConsumerDto → Prop)
    `{!∀ r, Decision (P r), !∀ r, Decision (Q r)} l :
  filter P (filter Q l) = filter Q (filter P l).
Proof.
  rewrite !list_filter_filter. apply list_filter_iff. intros r. tauto.
Qed.

(** A list in the order of one relation, whose elements of each key are
    in the order of a second one, is in the order of the first and, for
    equal keys, of the second. *)
Lemma StronglySorted_ties {K} `{!EqDecision K} (key : ConsumerDto → K)
    (R1 R2 : relation ConsumerDto) l :
  StronglySorted R1 l →
  (∀ k, StronglySorted R2 (filter (λ r, key r = k) l)) →
  StronglySorted (λ r1 r2, R1 r1 r2 ∧ (key r1 = key r2 → R2 r1 r2)) l.
Proof.
  induction 1 as [|r l Hl IH Hr]; intros Hkeys; [constructor|].
  constructor.
  - apply IH. intros k. specialize (Hkeys k).
    rewrite filter_cons in Hkeys. case_decide; [|done].
    by apply StronglySorted_inv in Hkeys as [? _].
  - apply Forall_forall. intros r' Hin. split.
    + by eapply Forall_forall in Hr.
    + intros Heq. specialize (Hkeys (key r)).
      rewrite filter_cons_True in Hkeys by done.
      apply StronglySorted_inv in Hkeys as [_ Hkeys].
      eapply Forall_forall in Hkeys; [exact Hkeys|].
      by apply list_elem_of_filter.
Qed.


Example sort_by_name_then_pending :
  consumers (onChangeSorting "pending" DESC
               (onChangeSorting "name" DESC
                  (initial [bob; alice; dave; carol])))
  = [carol; alice; dave; bob].
Proof. reflexivity. Qed.

(** The rows made of a list that is in order are in the order in which
    [orderBy] leaves them. *)
Lemma sortables_sorted column order n l :
  StronglySorted
    (λ r1 r2, in_order order (get r1 column) (get r2 column)) l →
  StronglySorted (row_before column order) (sortables column n l).
Proof.
  intros Hl. revert n. induction Hl as [|v l Hl IH Hv]; intros n.
  { constructor. }
  rewrite sortables_cons. constructor; [apply IH|].
  apply Forall_forall. intros x Hx. unfold row_before. simpl.
  assert (n ≤ index x)%nat as Hi.
  { destruct (sortables_index column (S n) l) as [Hge _].
    eapply Forall_forall in Hge; [|exact Hx]. simpl in Hge. lia. }
  assert (value_of x ∈ l) as Hin.
  { rewrite <- (sortables_value_of column (S n) l).
    by apply list_elem_of_fmap_2. }
  eapply Forall_forall in Hv; [|exact Hin].
  destruct (decide (get v column = get (value_of x) column)); auto.
Qed.

(** Sorting a list that is in order leaves it as it is. *)
Lemma orderBy_sorted l column order :
  StronglySorted
    (λ r1 r2, in_order order (get r1 column) (get r2 column)) l →
  orderBy get l column (Some (toLowerCase order)) = l.
Proof.
  intros Hl. rewrite orderBy_sortables.
  rewrite <- (sorted_sortables_unique column order l (sortables column 0 l)).
  - apply sortables_value_of.
  - done.
  - eapply StronglySorted_weaken; [|by apply sortables_sorted].
    intros x y Hx Hy.
    pose proof (sortables_criteria column 0 l) as HD.
    rewrite Forall_forall in HD.
    by rewrite before_row_before by auto.
Qed.



End consumers_view.

(** ** GroupsViewWrapper.tsx *)

Section groups_view_wrapper.
Import GroupsViewWrapper.

Implicit Types (s : state) (groupName : string).

Lemma effect_group s :
  group <$> groups (effect s) = loadedGroups (effect s).
Proof.
  simpl. rewrite <- list_fmap_compose. apply list_fmap_id.
Qed.

Lemma effect_editing s :
  Forall (λ item, editing item = false) (groups (effect s)).
Proof. simpl. by apply Forall_fmap, Forall_true. Qed.

Lemma commit_group previous next :
  group <$> groups next = group <$> groups previous →
  loadedGroups next = loadedGroups previous →
  group <$> groups previous = loadedGroups previous →
  group <$> groups (commit previous next) =
    loadedGroups (commit previous next).
Proof.
  intros Hgroups Hloaded Hinv. unfold commit.
  case_decide; [congruence|apply effect_group].
Qed.


Lemma session_reachable : reachable session.
Proof. repeat constructor. Qed.


Example session_state :
  deleting session = "mygroup_stream_group" ∧
  groups session = [ {| group := mygroup; editing := false |};
                     {| group := workers; editing := true |} ].
Proof. done. Qed.




(** *** Editing rows and selecting groups *)

Lemma state_eq s1 s2 :
  loadedGroups s1 = loadedGroups s2 → groups s1 = groups s2 →
  deleting s1 = deleting s2 → dispatched s1 = dispatched s2 → s1 = s2.
Proof. destruct s1, s2. simpl. by intros -> -> -> ->. Qed.

(** X15. [handleEditGroup] sets the editing flag of the rows of the group
    named and of no other row, and the effect does not run after it. A
    name that no group has changes nothing; of two calls for one group
    the last one counts; calls for two different groups can be made in
    either order. *)
Theorem handleEditGroup_rows (groupId : string) (editing' : bool) s :
  on (handleEditGroup groupId editing') s =
    handleEditGroup groupId editing' s ∧
  Forall2 (λ old new,
             group new = group old ∧
             editing new = if decide (name (group old) = groupId)
                           then editing' else editing old)
          (groups s) (groups (handleEditGroup groupId editing' s)) ∧
  ((∀ item, item ∈ groups s → name (group item) ≠ groupId) →
   handleEditGroup groupId editing' s = s) ∧
  (∀ e, handleEditGroup groupId editing' (handleEditGroup groupId e s) =
          handleEditGroup groupId editing' s) ∧
  (∀ g e, g ≠ groupId →
     handleEditGroup g e (handleEditGroup groupId editing' s) =
       handleEditGroup groupId editing' (handleEditGroup g e s)).
Proof.
  split_and!.
  - unfold on, commit. by rewrite decide_True.
  - simpl. apply Forall2_fmap_r, Forall_Forall2_diag, Forall_forall.
    intros item _. simpl. by case_decide.
  - intros Hnone. apply state_eq; try done. simpl.
    rewrite <- (list_fmap_id (groups s)) at 2.
    apply list_fmap_ext. intros i item Hin%list_elem_of_lookup_2.
    rewrite decide_False; [done|]. by apply Hnone.
  - intros e. apply state_eq; try done. simpl.
    rewrite <- list_fmap_compose. apply list_fmap_ext.
    intros i item _. simpl. repeat (case_decide; simpl in * ); congruence.
  - intros g e Hg. apply state_eq; try done. simpl.
    rewrite <- !list_fmap_compose. apply list_fmap_ext.
    intros i item _. simpl.
    repeat (case_decide; simpl in * ); congruence.
Qed.

Lemma handleEditGroup_rows_witness :
  handleEditGroup "consumers" true (mount [mygroup; workers]) =
    mount [mygroup; workers] ∧
  handleEditGroup "mygroup" false
    (handleEditGroup "workers" true (mount [mygroup; workers])) =
  handleEditGroup "workers" true
    (handleEditGroup "mygroup" false (mount [mygroup; workers])).
Proof.
  destruct (handleEditGroup_rows "consumers" true (mount [mygroup; workers]))
    as (_ & _ & Hnone & _).
  destruct (handleEditGroup_rows "workers" true (mount [mygroup; workers]))
    as (_ & _ & _ & _ & Hcomm).
  split.
  - apply Hnone. intros item Hin.
    repeat (apply elem_of_cons in Hin as [-> | Hin]; [discriminate|]).
    by apply elem_of_nil in Hin.
  - apply Hcomm. discriminate.
Defined.

Lemma commit_dispatched previous next :
  dispatched (commit previous next) = dispatched next.
Proof. unfold commit. by case_decide. Qed.



(** X19. Showing the popover of a group and closing the popover put
    every row out of editing, the effect rebuilding the list, unless they
    change nothing: the popover shown was that of the group already, the
    popover was closed already. *)
Theorem popover_resets_editing (groupName : string) s :
  (deleting s = groupName +:+ suffix →
   on (showPopover groupName) s = s) ∧
  (deleting s ≠ groupName +:+ suffix →
   groups (on (showPopover groupName) s) =
     (λ item, {| group := item; editing := false |}) <$> loadedGroups s) ∧
  (deleting s = "" → on closePopover s = s) ∧
  (deleting s ≠ "" →
   groups (on closePopover s) =
     (λ item, {| group := item; editing := false |}) <$> loadedGroups s).
Proof.
  unfold on, commit. split_and!.
  - intros Hdel. rewrite decide_True by done. by apply state_eq.
  - intros Hdel. rewrite decide_False; [done|]. by intros [_ ?].
  - intros Hdel. rewrite decide_True by done. by apply state_eq.
  - intros Hdel. rewrite decide_False; [done|]. by intros [_ ?].
Qed.

Lemma popover_resets_editing_witness :
  on (showPopover "mygroup") session = session ∧
  groups (on (showPopover "workers") session) =
    [ {| group := mygroup; editing := false |};
      {| group := workers; editing := false |} ] ∧
  groups (on closePopover session) =
    [ {| group := mygroup; editing := false |};
      {| group := workers; editing := false |} ].
Proof.
  destruct (popover_resets_editing "mygroup" session)
    as (Hsame & _ & _ & Hclose).
  destruct (popover_resets_editing "workers" session)
    as (_ & Hother & _).
  split_and!.
  - apply Hsame. reflexivity.
  - apply Hother. discriminate.
  - apply Hclose. discriminate.
Defined.

End groups_view_wrapper.

(** ** The ranges of a stream *)

Section ranges.
Import Redis.
Context {A : Type} (R : relation A).
Implicit Types (l : list A).

Lemma StronglySorted_take n l :
  StronglySorted R l → StronglySorted R (take n l).
Proof.
  intros Hl. revert n. induction Hl as [|x l Hl IH Hx]; intros [|n]; simpl;
    try constructor; [done|].
  apply Forall_forall. intros y Hy%subseteq_take.
  by eapply Forall_forall in Hx.
Qed.

Lemma StronglySorted_reverse l :
  StronglySorted R l → StronglySorted (flip R) (reverse l).
Proof.
  induction 1 as [|x l Hl IH Hx]; [constructor|].
  rewrite reverse_cons. apply StronglySorted_app_2; [|done|].
  - intros y z Hy ->%list_elem_of_singleton.
    rewrite elem_of_reverse in Hy. by eapply Forall_forall in Hx.
  - repeat constructor.
Qed.
End ranges.

(** ** ConsumersView.tsx: the two directions *)

Section consumers_view_directions.
Import Lodash ConsumersView.



(** With equal values the table is not turned around: the consumers of
    equal values keep their order. *)
Example toggle_with_equal_values :
  consumers (onChangeSorting "pending" DESC
               (onChangeSorting "pending" ASC
                  (initial [bob; alice; dave; carol]))) =
    [alice; carol; dave; bob] ∧
  reverse (consumers (onChangeSorting "pending" ASC
                        (initial [bob; alice; dave; carol]))) =
    [carol; alice; dave; bob].
Proof. split; reflexivity. Qed.

End consumers_view_directions.

Section stream_ranges.
Import Redis.
Implicit Types (st : stream) (lo hi : id) (count : N).

Lemma range_length st lo hi count :
  (List.length (range st lo hi count) ≤ N.to_nat count)%nat.
Proof. unfold range. rewrite length_take. lia. Qed.

Lemma revrange_length st hi lo count :
  (List.length (revrange st hi lo count) ≤ N.to_nat count)%nat.
Proof. unfold revrange. rewrite length_take. lia. Qed.

Lemma range_older st lo hi count :
  stream_wf st → StronglySorted older (range st lo hi count).
Proof.
  intros [Hsorted _]. by apply StronglySorted_take, StronglySorted_filter.
Qed.

Lemma revrange_newer st hi lo count :
  stream_wf st → StronglySorted (flip older) (revrange st hi lo count).
Proof.
  intros [Hsorted _].
  by apply StronglySorted_take, StronglySorted_reverse,
           StronglySorted_filter.
Qed.

(** Every entry of a range lies between its ends. *)
Lemma range_in_range st lo hi count e :
  e ∈ range st lo hi count ∨ e ∈ revrange st hi lo count →
  e ∈ entries st ∧ id_le lo (entry_id e) ∧ id_le (entry_id e) hi.
Proof.
  unfold range, revrange.
  intros [Hin%subseteq_take | Hin%subseteq_take];
    [|rewrite elem_of_reverse in Hin];
    apply list_elem_of_filter in Hin as [[??] ?]; done.
Qed.

End stream_ranges.

(** ** The get-entries endpoint *)

Section get_entries.
Import Json GetEntries.
Implicit Types (srv : server) (body : json) (dto : GetStreamEntriesDto).
Implicit Types (db : Redis.database) (st : Redis.stream).
Implicit Types (instanceId : string) (response : GetStreamEntriesResponse).

Lemma execute_denied db c :
  Redis.name_of c ∈ Redis.denied db →
  Redis.execute db c = Redis.Error Redis.NOPERM.
Proof. intros Hc. unfold Redis.execute. by rewrite decide_True. Qed.

Lemma execute_xinfo db key st :
  Redis.xinfo ∉ Redis.denied db →
  Redis.get key (Redis.keyspace db) = Some (Redis.VStream st) →
  Redis.execute db (Redis.XINFO_STREAM key) =
    Redis.Info {| Redis.length := N.of_nat (length (Redis.entries st));
                  Redis.info_last_generated_id := Redis.last_generated_id st;
                  Redis.first_entry := head (Redis.entries st);
                  Redis.last_entry := last (Redis.entries st) |}.
Proof.
  intros Hacl Hget. unfold Redis.execute, Redis.with_stream.
  rewrite decide_False by done. by rewrite Hget.
Qed.

Lemma execute_range db dto st lo hi :
  Redis.name_of (range_command dto) ∉ Redis.denied db →
  Redis.get (keyName dto) (Redis.keyspace db) = Some (Redis.VStream st) →
  Redis.parse_start (start dto) = Some lo →
  Redis.parse_end (end_ dto) = Some hi →
  Redis.execute db (range_command dto) =
    Redis.Entries (selected dto st lo hi).
Proof.
  intros Hacl Hget Hlo Hhi. unfold Redis.execute.
  rewrite decide_False by done.
  unfold range_command, selected, Redis.with_stream in *.
  destruct (sortOrder dto); by rewrite Hget, Hlo, Hhi.
Qed.

(** A request that is valid all through is answered with the entries it
    selects. *)
Lemma getEntries_run srv instanceId body dto db st lo hi :
  read body = Some dto →
  instance instanceId srv = Some db →
  Redis.get (keyName dto) (Redis.keyspace db) = Some (Redis.VStream st) →
  Redis.xinfo ∉ Redis.denied db →
  Redis.name_of (range_command dto) ∉ Redis.denied db →
  Redis.parse_start (start dto) = Some lo →
  Redis.parse_end (end_ dto) = Some hi →
  getEntries srv instanceId body =
    ([Redis.XINFO_STREAM (keyName dto); range_command dto],
     Success {| response_keyName := keyName dto;
                total := N.of_nat (length (Redis.entries st));
                lastGeneratedId := Redis.last_generated_id st;
                firstEntry := head (Redis.entries st);
                lastEntry := last (Redis.entries st);
                entries := selected dto st lo hi |}).
Proof.
  intros Hread Hdb Hget Hinfo Hrange Hlo Hhi. unfold getEntries.
  rewrite Hread, Hdb. rewrite (execute_xinfo db _ st) by done.
  by rewrite (execute_range db dto st lo hi).
Qed.

(** And an answer with entries comes from such a request only. *)
Lemma getEntries_Success srv instanceId body log response :
  getEntries srv instanceId body = (log, Success response) →
  ∃ dto db st lo hi,
    read body = Some dto ∧
    instance instanceId srv = Some db ∧
    Redis.get (keyName dto) (Redis.keyspace db) = Some (Redis.VStream st) ∧
    Redis.parse_start (start dto) = Some lo ∧
    Redis.parse_end (end_ dto) = Some hi ∧
    response =
      {| response_keyName := keyName dto;
         total := N.of_nat (length (Redis.entries st));
         lastGeneratedId := Redis.last_generated_id st;
         firstEntry := head (Redis.entries st);
         lastEntry := last (Redis.entries st);
         entries := selected dto st lo hi |}.
Proof.
  unfold getEntries.
  destruct (read body) as [dto|] eqn:Hread; [|done].
  destruct (instance instanceId srv) as [db|] eqn:Hdb; [|done].
  destruct (Redis.execute db (Redis.XINFO_STREAM _)) as [i| |] eqn:Hinfo;
    [|done..].
  destruct (Redis.execute db (range_command dto)) as [|es|] eqn:Hrange;
    [done| |done].
  intros [= <- <-]. simpl.
  unfold Redis.execute, Redis.with_stream in Hinfo, Hrange.
  case_decide; [done|]. case_decide; [done|].
  destruct (Redis.get (keyName dto) (Redis.keyspace db))
    as [[| | |st]|] eqn:Hget; try done.
  injection Hinfo as <-.
  assert (∃ lo hi, Redis.parse_start (start dto) = Some lo ∧
                   Redis.parse_end (end_ dto) = Some hi ∧
                   es = selected dto st lo hi) as (lo & hi & ? & ? & ->).
  { unfold range_command, selected in *.
    destruct (sortOrder dto); rewrite Hget in Hrange;
      destruct (Redis.parse_start (start dto)) as [lo|]; try done;
      destruct (Redis.parse_end (end_ dto)) as [hi|]; try done;
      injection Hrange as <-; by exists lo, hi. }
  by exists dto, db, st, lo, hi.
Qed.

Lemma selected_bounded_ordered dto st lo hi :
  Redis.stream_wf st →
  (length (selected dto st lo hi) ≤ N.to_nat (count dto))%nat ∧
  ordered (sortOrder dto) (selected dto st lo hi).
Proof.
  intros Hwf. unfold selected, ordered. destruct (sortOrder dto).
  - split; [apply range_length|by apply range_older].
  - split; [apply revrange_length|by apply revrange_newer].
Qed.

(** *** The environment of the suite *)

Lemma hugeEntries_wf number (i : N) :
  StronglySorted Redis.older (hugeEntries number i) ∧
  Forall (λ e, (i < (Redis.entry_id e).1)%N ∧
               Redis.id_le (Redis.entry_id e) (i + N.of_nat number, 0)%N)
         (hugeEntries number i).
Proof.
  revert i. induction number as [|number IH]; intros i.
  { split; constructor. }
  destruct (IH (N.succ i)) as [Hsorted Hle]. simpl. split.
  - constructor; [done|].
    eapply Forall_impl; [exact Hle|]. intros e [He _].
    unfold Redis.older, Redis.id_lt. simpl. lia.
  - constructor.
    + simpl. split; [lia|]. unfold Redis.id_le, Redis.id_lt. simpl.
      destruct (decide (number = 0)) as [-> | Hnumber];
        [left; f_equal; lia | right; left; lia].
    + eapply Forall_impl; [exact Hle|]. intros e [He Hmax].
      split; [lia|].
      by replace (i + N.of_nat (S number))%N
        with (N.succ i + N.of_nat number)%N by lia.
Qed.

Lemma generateHugeStream_wf number :
  Redis.stream_wf (generateHugeStream number).
Proof.
  destruct (hugeEntries_wf number 0) as [Hsorted Hle].
  split; [done|]. eapply Forall_impl; [exact Hle|]. by intros e [_ ?].
Qed.

Lemma rte_wf number rules : server_wf (rte number rules).
Proof.
  intros instanceId db key st Hdb Hget.
  assert (Redis.keyspace db = generatedKeys number) as Hkeys.
  { simpl in Hdb. repeat case_decide; by simplify_eq. }
  rewrite Hkeys in Hget. simpl in Hget.
  repeat case_decide; simplify_eq. apply generateHugeStream_wf.
Qed.

(** *** The claims on the endpoint *)

(** C1. For every valid range query (the instance is there, the key holds
    a stream, the ends of the range are "-", "+" or ids, the user may run
    the commands; the count is the one of the body, which the schema wants
    to be 1 at least) the answer holds at most count entries, and they are
    in the order of their ids: ascending for ASC, descending for DESC. *)
Theorem getEntries_bounded_ordered srv instanceId body dto db st lo hi :
  server_wf srv →
  read body = Some dto →
  instance instanceId srv = Some db →
  Redis.get (keyName dto) (Redis.keyspace db) = Some (Redis.VStream st) →
  Redis.xinfo ∉ Redis.denied db →
  Redis.name_of (range_command dto) ∉ Redis.denied db →
  Redis.parse_start (start dto) = Some lo →
  Redis.parse_end (end_ dto) = Some hi →
  ∃ response,
    (getEntries srv instanceId body).2 = Success response ∧
    (length (entries response) ≤ N.to_nat (count dto))%nat ∧
    ordered (sortOrder dto) (entries response).
Proof.
  intros Hwf Hread Hdb Hget Hinfo Hrange Hlo Hhi.
  rewrite (getEntries_run srv instanceId body dto db st lo hi) by done.
  eexists. split; [reflexivity|]. simpl.
  apply selected_bounded_ordered. by eapply Hwf.
Qed.

Lemma getEntries_bounded_ordered_witness :
  ∃ response,
    (getEntries (rte 20 []) TEST_INSTANCE_ID
       (JObject [("keyName", JString TEST_STREAM_HUGE_KEY);
                 ("start", JString "3-0"); ("end", JString "+");
                 ("count", JInt 5); ("sortOrder", JString "ASC")])).2
      = Success response ∧
    (length (entries response) ≤ 5)%nat ∧
    ordered ASC (entries response).
Proof.
  apply (getEntries_bounded_ordered (rte 20 []) TEST_INSTANCE_ID
           (JObject [("keyName", JString TEST_STREAM_HUGE_KEY);
                     ("start", JString "3-0"); ("end", JString "+");
                     ("count", JInt 5); ("sortOrder", JString "ASC")])
           {| keyName := TEST_STREAM_HUGE_KEY; start := "3-0"; end_ := "+";
              count := 5; sortOrder := ASC |}
           {| Redis.keyspace := generatedKeys 20; Redis.denied := [] |}
           (generateHugeStream 20) (3, 0)%N
           (Redis.max_uint64, Redis.max_uint64)).
  - apply rte_wf.
  - vm_compute. reflexivity.
  - reflexivity.
  - reflexivity.
  - simpl. apply not_elem_of_nil.
  - simpl. apply not_elem_of_nil.
  - vm_compute. reflexivity.
  - vm_compute. reflexivity.
Defined.

(** Whatever the request, an answer with entries is bounded and ordered
    as the request reads. *)
Lemma getEntries_Success_bounded_ordered srv instanceId body log response :
  server_wf srv →
  getEntries srv instanceId body = (log, Success response) →
  ∃ dto, read body = Some dto ∧
    (length (entries response) ≤ N.to_nat (count dto))%nat ∧
    ordered (sortOrder dto) (entries response).
Proof.
  intros Hwf (dto & db & st & lo & hi & Hread & Hdb & Hget & _ & _ & ->)
    %getEntries_Success.
  exists dto. split; [done|]. simpl.
  apply selected_bounded_ordered. by eapply Hwf.
Qed.



(** *** Validation *)

Lemma scalar_eqb_eq (v w : json) : scalar_eqb v w = true → v = w.
Proof.
  destruct v, w; simpl; try done;
    intros ?%bool_decide_eq_true; by subst.
Qed.

Lemma existsb_scalar_eqb (v : json) (vs : list json) :
  existsb (scalar_eqb v) vs = true → v ∈ vs.
Proof.
  intros (w & Hin & ->%scalar_eqb_eq)%existsb_exists.
  by apply list_elem_of_In.
Qed.

Lemma is_safe_integer_is_integer (q : Qc) :
  Joi.is_safe_integer q = true → is_integer q = true.
Proof. unfold Joi.is_safe_integer. by intros [? _]%andb_true_iff. Qed.

(** One key that fails its schema fails the object. *)
Lemma check_keys_false (o : Joi.object_schema) members key sch :
  (key, sch) ∈ Joi.keys o →
  Joi.check sch (lookup key members) = false →
  Joi.check_keys o members = false.
Proof.
  intros Hin Hcheck. apply not_true_is_false. intros Hall.
  unfold Joi.check_keys in Hall. rewrite forallb_forall in Hall.
  apply list_elem_of_In, Hall in Hin. congruence.
Qed.

Lemma validate_false (o : Joi.object_schema) members key sch :
  (key, sch) ∈ Joi.keys o →
  Joi.check sch (lookup key members) = false →
  Joi.validate o (JObject members) = false.
Proof.
  intros Hin Hcheck. simpl.
  by rewrite (check_keys_false o members key sch).
Qed.

Lemma check_false (sch : Joi.schema) (v : json) :
  v ∉ Joi.allow sch →
  match Joi.valid sch with
  | Some vs => v ∉ vs
  | None => Joi.check_base sch v = false
  end →
  Joi.check sch (Some v) = false.
Proof.
  intros Hallow Hvalid. unfold Joi.check. apply orb_false_intro.
  - apply not_true_is_false. by intros Hin%existsb_scalar_eqb.
  - destruct (Joi.valid sch) as [vs|]; [|done].
    apply not_true_is_false. by intros Hin%existsb_scalar_eqb.
Qed.

(** A value that is not a string fails the schema of a string. *)
Lemma check_string_false (v : json) :
  ¬ is_string v → Joi.check_base Joi.string v = false.
Proof. intros Hv. destruct v; try done. destruct Hv. by eexists. Qed.

Lemma not_string_not_in (v : json) (vs : list json) :
  ¬ is_string v → Forall is_string vs → v ∉ vs.
Proof. intros Hv Hvs Hin. by eapply Forall_forall in Hvs. Qed.

(** Every body of the list fails the schema of the endpoint. *)
Lemma mismatch_invalid body :
  mismatch body → Joi.validate requestSchema body = false.
Proof.
  destruct 1 as [body Hbody | members Hkey | members v Hkey Hv
                 | members v Hkey Hv | members v Hkey Hv
                 | members v Hkey Htrue Hv | members v Hkey Hdesc Hasc].
  - destruct body; try done. by destruct (Hbody members).
  - eapply (validate_false _ _ "keyName");
      [by repeat constructor|]. by rewrite Hkey.
  - eapply (validate_false _ _ "keyName");
      [by repeat constructor|]. rewrite Hkey.
    apply check_false; simpl; [|by apply check_string_false].
    apply not_string_not_in; [done|]. repeat constructor. by eexists.
  - eapply (validate_false _ _ "start");
      [by repeat constructor|]. rewrite Hkey.
    apply check_false; simpl;
      [apply not_elem_of_nil|by apply check_string_false].
  - eapply (validate_false _ _ "end");
      [by repeat constructor|]. rewrite Hkey.
    apply check_false; simpl;
      [apply not_elem_of_nil|by apply check_string_false].
  - eapply (validate_false _ _ "count");
      [by repeat constructor|]. rewrite Hkey.
    apply check_false; simpl.
    + by intros ->%list_elem_of_singleton.
    + destruct v as [| |q| | |]; try done. unfold Joi.check_base. simpl.
      apply not_true_is_false.
      intros [Hsafe Hmin%bool_decide_eq_true]%andb_true_iff.
      apply (Hv q); [done|]. split; [|done].
      by apply is_safe_integer_is_integer.
  - eapply (validate_false _ _ "sortOrder");
      [by repeat constructor|]. rewrite Hkey.
    apply check_false; simpl; [apply not_elem_of_nil|].
    intros Hin.
    repeat (apply elem_of_cons in Hin as [-> | Hin]; [done|]).
    by apply elem_of_nil in Hin.
Qed.

(** The schema of the suite refuses what the endpoint refuses. *)
Lemma requestSchema_dataSchema body :
  Joi.validate requestSchema body = false →
  Joi.validate dataSchema body = false.
Proof.
  destruct body; try done. simpl. rewrite andb_true_r.
  change (Joi.check_keys requestSchema members)
    with (Joi.check_keys dataSchema members).
  by intros ->.
Qed.

Lemma getEntries_invalid srv instanceId body :
  Joi.validate requestSchema body = false →
  getEntries srv instanceId body = ([], Failure ValidationFailed).
Proof. intros Hbody. unfold getEntries, read. by rewrite Hbody. Qed.




(** *** Permissions *)




(** *** The body of the answer *)

Lemma entry_json_is_entry (e : Redis.entry) : is_entry (entry_json e).
Proof. by eexists _, _. Qed.

Lemma show_id_not_empty (i : Redis.id) : Redis.show_id i ≠ "".
Proof. unfold Redis.show_id. by destruct (pretty i.1). Qed.

Lemma of_Z_this (z : Z) : this (of_Z z) = inject_Z z.
Proof. apply Qred_identity. simpl. apply Z.gcd_1_r. Qed.

Lemma of_Z_le (a b : Z) : (a ≤ b)%Z → (of_Z a ≤ of_Z b)%Qc.
Proof.
  intros Hab. unfold Qcle. rewrite !of_Z_this. by rewrite <- Zle_Qle.
Qed.

Lemma is_safe_integer_of_Z (z : Z) :
  (0 ≤ z ≤ 2 ^ 53 - 1)%Z → Joi.is_safe_integer (of_Z z) = true.
Proof.
  intros Hz. unfold Joi.is_safe_integer, is_integer, Joi.is_safe.
  rewrite of_Z_this. simpl.
  apply bool_decide_eq_true_2. split; apply of_Z_le; lia.
Qed.

Lemma entrySchema_entry_json (e : Redis.entry) :
  Joi.validate entrySchema (entry_json e) = true.
Proof.
  unfold entry_json. cbn.
  destruct (Redis.show_id (Redis.entry_id e)) eqn:Hid; [|done].
  by destruct (show_id_not_empty (Redis.entry_id e)).
Qed.

(** The schema of the suite takes the body of an answer when the stream
    holds an entry, the key has a name and the total is a safe integer. *)
Lemma responseSchema_to_json response e1 e2 :
  firstEntry response = Some e1 → lastEntry response = Some e2 →
  response_keyName response ≠ "" →
  (Z.of_N (total response) ≤ 2 ^ 53 - 1)%Z →
  Joi.validate_members responseSchema (to_json response) = true.
Proof.
  intros Hfirst Hlast Hkey Htotal. unfold to_json. rewrite Hfirst, Hlast.
  cbn -[Joi.validate entry_json Joi.check].
  repeat first [rewrite decide_True by done | rewrite decide_False by done].
  cbn -[Joi.validate entry_json Joi.check].
  rewrite !entrySchema_entry_json.
  assert (forallb (Joi.validate entrySchema)
            (entry_json <$> entries response) = true) as ->.
  { apply forallb_forall. intros v Hin.
    apply list_elem_of_In, list_elem_of_fmap in Hin as (e & -> & _).
    apply entrySchema_entry_json. }
  assert (Joi.check (Joi.with_required (Joi.with_integer Joi.number))
            (Some (JInt (Z.of_N (total response)))) = true) as ->.
  { cbn. rewrite is_safe_integer_of_Z by lia. done. }
  assert (Joi.check (Joi.with_required Joi.string)
            (Some (JString (Redis.show_id (lastGeneratedId response))))
          = true) as ->.
  { cbn. destruct (Redis.show_id _) eqn:Hid; [|done].
    by destruct (show_id_not_empty (lastGeneratedId response)). }
  cbn. by destruct (response_keyName response).
Qed.




(** *** Defaults *)

Lemma read_defaults members :
  lookup "count" members = None → lookup "sortOrder" members = None →
  read (JObject (("count", JInt 500) :: ("sortOrder", JString "DESC")
                   :: members)) =
  read (JObject members).
Proof.
  intros Hcount Hsort. unfold read. simpl.
  unfold Joi.check_keys. simpl. rewrite Hcount, Hsort. simpl.
  by destruct (Joi.check _ _ && _).
Qed.



(** X3. The valid input data of the suite passes the schema of the suite
    whatever the random key name, the empty one too. *)
Theorem dataSchema_validInputData (randomString : string) :
  Joi.validate dataSchema (validInputData randomString) = true.
Proof.
  unfold validInputData. cbn -[Joi.check].
  repeat first [rewrite decide_True by done | rewrite decide_False by done].
  assert (Joi.check (Joi.with_required (Joi.with_allow [JString ""] Joi.string))
            (Some (JString randomString)) = true) as ->.
  { cbn. by destruct randomString. }
  by vm_compute.
Qed.

(** X4. The schema of the suite refuses every object that carries a key
    other than keyName, start, end, count and sortOrder. *)
Theorem dataSchema_refuses_unknown_key members key :
  key ∈ members.*1 →
  key ∉ ["keyName"; "start"; "end"; "count"; "sortOrder"] →
  Joi.validate dataSchema (JObject members) = false.
Proof.
  intros Hin Hkey. simpl. apply andb_false_intro2.
  apply not_true_is_false. intros Hall.
  unfold Joi.known_keys in Hall. rewrite forallb_forall in Hall.
  apply list_elem_of_fmap in Hin as ([k v] & -> & Hin).
  apply list_elem_of_In, Hall in Hin. by apply bool_decide_eq_true in Hin.
Qed.

Lemma dataSchema_refuses_unknown_key_witness :
  Joi.validate dataSchema
    (JObject [ ("keyName", JString TEST_STREAM_HUGE_KEY);
               ("offset", JInt 0); ("count", JInt 15);
               ("sortOrder", JString "ASC") ]) = false.
Proof.
  apply (dataSchema_refuses_unknown_key _ "offset").
  - apply elem_of_cons. right. apply elem_of_cons. left. reflexivity.
  - intros Hin.
    repeat (apply elem_of_cons in Hin as [Hin | Hin]; [discriminate|]).
    apply elem_of_nil in Hin. exact Hin.
Defined.

Example validInputData_valid :
  Joi.validate dataSchema (validInputData "random") = true ∧
  read (validInputData "random") =
    Some {| keyName := "random"; start := "-"; end_ := "+"; count := 15;
            sortOrder := DESC |}.
Proof. split; vm_compute; reflexivity. Qed.

Example count_true_valid :
  Joi.validate dataSchema
    (JObject [("keyName", JString ""); ("count", JBool true)]) = true ∧
  Joi.validate dataSchema
    (JObject [("keyName", JString "k"); ("count", JNumber (Q2Qc (3 # 2)))])
    = false ∧
  Joi.validate dataSchema
    (JObject [("keyName", JString "k"); ("count", JInt 0)]) = false ∧
  Joi.validate dataSchema
    (JObject [("keyName", JString "k"); ("start", JString "")]) = false.
Proof. split_and!; vm_compute; reflexivity. Qed.

(** *** What the schemas of the suite accept *)

Lemma of_Z_le_iff (a b : Z) : (of_Z a ≤ of_Z b)%Qc ↔ (a ≤ b)%Z.
Proof. unfold Qcle. rewrite !of_Z_this. by rewrite <- Zle_Qle. Qed.

Lemma is_integer_of_Z (q : Qc) :
  is_integer q = true ↔ ∃ z, q = of_Z z.
Proof.
  unfold is_integer. rewrite bool_decide_eq_true. split.
  - intros Hden. exists (Qnum (this q)). apply Qc_is_canon.
    rewrite of_Z_this. destruct q as [[n d] Hq]. simpl in *.
    by subst d.
  - intros [z ->]. by rewrite of_Z_this.
Qed.

Lemma check_string_iff (v : option json) :
  Joi.check Joi.string v = true ↔
  v = None ∨ ∃ s, v = Some (JString s) ∧ s ≠ "".
Proof.
  destruct v as [[| b | q | s | items | members]|]; simpl;
    try (split; [done|by intros [? | (? & ? & ?)]]).
  - unfold Joi.check_base. simpl.
    rewrite negb_true_iff, String.eqb_neq. split.
    + intros Hs. right. by exists s.
    + by intros [? | (? & [= <-] & ?)].
  - split; [by left|done].
Qed.

Lemma check_keyName_iff (v : option json) :
  Joi.check (Joi.with_required (Joi.with_allow [JString ""] Joi.string)) v
    = true ↔
  ∃ s, v = Some (JString s).
Proof.
  destruct v as [[| b | q | s | items | members]|]; simpl;
    try (split; [done|by intros [? ?]]).
  split; [by exists s|]. intros _. by destruct s.
Qed.

Lemma check_count_iff (v : option json) :
  Joi.check (Joi.with_allow [JBool true]
               (Joi.with_min 1 (Joi.with_integer Joi.number))) v = true ↔
  v = None ∨ v = Some (JBool true) ∨
  ∃ z, v = Some (JInt z) ∧ (1 ≤ z ≤ 2 ^ 53 - 1)%Z.
Proof.
  destruct v as [[| b | q | s | items | members]|];
    try (split; [done|by intros [? | [? | (? & ? & ?)]]]).
  - destruct b; [split; [by right; left|done]|].
    split; [done|by intros [? | [? | (? & ? & ?)]]].
  - unfold Joi.check. cbn [Joi.allow Joi.valid Joi.with_allow Joi.with_min
      Joi.with_integer Joi.number app existsb scalar_eqb orb].
    unfold Joi.check_base.
    cbn [Joi.type Joi.integer Joi.min Joi.with_allow Joi.with_min
      Joi.with_integer Joi.number].
    unfold Joi.is_safe_integer, Joi.is_safe.
    rewrite !andb_true_iff, !bool_decide_eq_true, is_integer_of_Z.
    split.
    + intros [[[z ->] [_ Hhi]] Hlo]. right. right. exists z.
      apply (proj1 (of_Z_le_iff _ _)) in Hhi.
      apply (proj1 (of_Z_le_iff _ _)) in Hlo. done.
    + intros [? | [? | (z & [= ->] & Hz)]]; [done..|].
      rewrite !of_Z_le_iff. split_and!; [by exists z|lia..].
  - split; [by left|done].
Qed.

Lemma check_sortOrder_iff (v : option json) :
  Joi.check (Joi.with_valid [JString "DESC"; JString "ASC"] Joi.string) v
    = true ↔
  v = None ∨ v = Some (JString "DESC") ∨ v = Some (JString "ASC").
Proof.
  destruct v as [[| b | q | s | items | members]|]; simpl;
    try (split; [done|by intros [? | [? | ?]]]).
  - rewrite !orb_true_iff, !bool_decide_eq_true. split.
    + intros [-> | [-> | ?]]; [auto..|done].
    + intros [? | [[= ->] | [= ->]]]; [done|auto..].
  - split; [by left|done].
Qed.

Lemma known_keys_Forall (o : Joi.object_schema) members :
  Joi.known_keys o members = true ↔
  Forall (λ member, member.1 ∈ (Joi.keys o).*1) members.
Proof.
  unfold Joi.known_keys. rewrite forallb_forall, Forall_forall. split.
  - intros Hall [key v] Hin%list_elem_of_In.
    by apply Hall, bool_decide_eq_true in Hin.
  - intros Hall [key v] Hin%list_elem_of_In.
    apply bool_decide_eq_true. by apply (Hall (key, v)).
Qed.

(** X17. The schema of the requests of the suite accepts exactly the
    objects whose keys are among keyName, start, end, count and sortOrder
    and in which keyName is a string, that may be empty; start and end,
    when they are there, are strings that are not empty; count, when it is
    there, is true or an integer from 1 to the greatest safe integer; and
    sortOrder, when it is there, is 'DESC' or 'ASC'. *)
Theorem dataSchema_accepts body :
  Joi.validate dataSchema body = true ↔
  ∃ members,
    body = JObject members ∧
    Forall (λ member,
              member.1 ∈ ["keyName"; "start"; "end"; "count"; "sortOrder"])
           members ∧
    (∃ s, lookup "keyName" members = Some (JString s)) ∧
    (lookup "start" members = None ∨
     ∃ s, lookup "start" members = Some (JString s) ∧ s ≠ "") ∧
    (lookup "end" members = None ∨
     ∃ s, lookup "end" members = Some (JString s) ∧ s ≠ "") ∧
    (lookup "count" members = None ∨
     lookup "count" members = Some (JBool true) ∨
     ∃ z, lookup "count" members = Some (JInt z) ∧
          (1 ≤ z ≤ 2 ^ 53 - 1)%Z) ∧
    (lookup "sortOrder" members = None ∨
     lookup "sortOrder" members = Some (JString "DESC") ∨
     lookup "sortOrder" members = Some (JString "ASC")).
Proof.
  destruct body as [| b | q | s | items | members];
    try (split; [done|by intros (? & ? & _)]).
  unfold Joi.validate, Joi.check_keys.
  cbn [dataSchema Joi.object Joi.keys Joi.unknown forallb orb].
  rewrite !andb_true_iff, known_keys_Forall.
  rewrite check_keyName_iff, !check_string_iff, check_count_iff,
    check_sortOrder_iff.
  split.
  - intros [(Hkey & Hstart & Hend & Hcount & Horder & _) Hknown].
    exists members. by split_and!.
  - intros (? & [= <-] & Hknown & Hkey & Hstart & Hend & Hcount & Horder).
    by split_and!.
Qed.

Lemma dataSchema_accepts_witness :
  Joi.validate dataSchema
    (JObject [("keyName", JString ""); ("count", JBool true)]) = true.
Proof.
  apply (dataSchema_accepts
           (JObject [("keyName", JString ""); ("count", JBool true)])).
  exists [("keyName", JString ""); ("count", JBool true)].
  split_and!.
  - reflexivity.
  - repeat constructor.
  - exists "". reflexivity.
  - left. reflexivity.
  - left. reflexivity.
  - right. left. reflexivity.
  - left. reflexivity.
Defined.

End get_entries.

(** ** The cases of the suite, run on the endpoint *)

Section get_entries_suite.
Import Json GetEntries.

(** 'Should query 500 entries in the DESC order by default'; the id of the
    hundredth entry is kept for the next case. *)
Example query_500_desc_by_default :
  common [("keyName", JString TEST_STREAM_HUGE_KEY)] =
    expected ((λ i, hugeEntry (9999 - N.of_nat i)) <$> seq 0 500) ∧
  Redis.show_id (Redis.entry_id (hugeEntry (9999 - 99))) = "9901-0".
Proof. split; vm_compute; reflexivity. Qed.

(** 'Should query 10 entries in the DESC order starting from 100th
    entry' *)
Example query_10_desc_from_100th :
  common [("keyName", JString TEST_STREAM_HUGE_KEY);
          ("start", JString "-"); ("end", JString "9901-0");
          ("count", JInt 10)] =
    expected ((λ i, hugeEntry (9900 - N.of_nat i)) <$> seq 0 10).
Proof. vm_compute. reflexivity. Qed.

(** 'Should query 500 entries in the ASC order' *)
Example query_500_asc :
  common [("keyName", JString TEST_STREAM_HUGE_KEY);
          ("sortOrder", JString "ASC")] =
    expected ((λ i, hugeEntry (N.of_nat i)) <$> seq 0 500) ∧
  Redis.show_id (Redis.entry_id (hugeEntry 99)) = "100-0".
Proof. split; vm_compute; reflexivity. Qed.

(** 'Should query 10 entries in the ASC order starting from 100th
    entry' *)
Example query_10_asc_from_100th :
  common [("keyName", JString TEST_STREAM_HUGE_KEY);
          ("start", JString "100-0"); ("end", JString "+");
          ("count", JInt 10); ("sortOrder", JString "ASC")] =
    expected ((λ i, hugeEntry (99 + N.of_nat i)) <$> seq 0 10).
Proof. vm_compute. reflexivity. Qed.

(** 'Should return BadRequest when try to work with non-stream type',
    'Should return NotFound error if key does not exists' and 'Should
    return NotFound error if instance id does not exists' *)
Example bad_request_and_not_found :
  (getEntries (rte 20 []) TEST_INSTANCE_ID
     (JObject [("keyName", JString TEST_STRING_KEY_1)])).2
    = Failure WrongType ∧
  (getEntries (rte 20 []) TEST_INSTANCE_ID
     (JObject [("keyName", JString "random")])).2
    = Failure KeyNotFound ∧
  (getEntries (rte 20 []) TEST_NOT_EXISTED_INSTANCE_ID
     (JObject [("keyName", JString TEST_STREAM_HUGE_KEY);
               ("offset", JInt 45); ("count", JInt 45);
               ("sortOrder", JString "ASC")])).2
    = Failure InstanceNotFound.
Proof. split_and!; by vm_compute. Qed.

(** The 'ACL' suite: the user is under '+@all', then without xinfo,
    without xrange and without xrevrange. *)
Example acl_cases :
  status_of (getEntries (rte 20 []) TEST_INSTANCE_ACL_ID
               (aclData "ASC")).2 = 200%N ∧
  (getEntries (rte 20 [Redis.xinfo]) TEST_INSTANCE_ACL_ID
     (aclData "ASC")).2 = Failure NoPermission ∧
  (getEntries (rte 20 [Redis.xrange]) TEST_INSTANCE_ACL_ID
     (aclData "ASC")).2 = Failure NoPermission ∧
  (getEntries (rte 20 [Redis.xrevrange]) TEST_INSTANCE_ACL_ID
     (aclData "DESC")).2 = Failure NoPermission.
Proof. split_and!; by vm_compute. Qed.

End get_entries_suite.
